(** * stune: the hyperparameter resolver [RunInfo] of [stune/utils.py]

    The development embeds [RunInfo.__getitem__] (Resolve),
    [RunInfo.__setitem__] (Overwrite) and [RunInfo._sample_param] (the
    sampling policy) and proves the properties of the resolver.

    Modelling decisions.
    - A configuration document is a tree of values: scalars, sequences
      and string-keyed mappings, as the document stores them.  OmegaConf
      evaluates a string node when it is read: ["???"] is a mandatory
      value that is missing, and [${hp:name}] calls the resolver that the
      constructor registers, which is Resolve again.  The resolver is
      given twice.  [__getitem__], [__setitem__] and [_sample_param] take
      every entry as it is stored; [lazy_getitem] and [lazy_setitem] read
      the entries the way OmegaConf does, with the nested resolutions,
      their writes to the cache and their calls on the Trial.  On a
      document without such strings the two are the same
      ([lazy_getitem_plain], [lazy_setitem_plain]).
    - The [hp] resolver is registered for the whole process and belongs
      to the [RunInfo] constructed last: the development is about one
      [RunInfo].  An interpolation other than [${hp:name}] (the [py]
      resolver evaluates Python code) is where the model stops ([Beyond]):
      nothing is stated about it.
    - Values are compared by content.  The resolution cache is a Python
      dict keyed by the path string, here a [gmap string value].
    - A raised exception leaves every mutation made before it in place, so
      a computation maps a state to an outcome and a state: the state after
      a failure is there to be inspected.
    - The Trial is an external object with a state of its own.  Every call
      made on it is appended to the field [calls], a record of the
      interaction that the source does not store. *)

From stdpp Require Import gmap strings list fin_maps.
From Stdlib Require Import ZArith Ascii String List Lia.
Import ListNotations.

Local Open Scope string_scope.
Local Open Scope Z_scope.
Local Open Scope list_scope.

(** ** Values and exceptions *)

(** Keys of OmegaConf containers as they appear in error reports: a path
    segment is always a string, the subscripts [0] and [1] of the [range]
    branch are integers. *)
Inductive key : Type :=
| KStr (s : string)
| KInt (n : Z).

(** The exceptions that the resolver can raise or let through. *)
Inductive exn : Type :=
| ConfigKeyError (missing : key) (full_key : list key)
| IndexError
| TypeError
| AttributeError
| KeyValidationError
| UnsupportedValueType
| NotImplementedError (msg : string)
| TrialError (msg : string)
| MissingMandatoryValue
| InterpolationResolutionError.


Set Warnings "-register-all".

(** Python values.  A float is kept as the decimal literal [m * 10 ^ e] of
    the document: the resolver never computes with one.  [VExc] is an
    exception object handled as data. *)
Inductive value : Type :=
| VNone
| VBool (b : bool)
| VInt (z : Z)
| VFloat (m e : Z)
| VStr (s : string)
| VList (l : list value)
| VDict (d : list (string * value))
| VExc (e : exn).

Abbreviation dict := (list (string * value)).

Inductive result (A : Type) : Type :=
| Ok (a : A)
| Err (e : exn).
Arguments Ok {A} a.
Arguments Err {A} e.

(** ** Python and OmegaConf primitives *)

(** [s.split("/")]: the pieces between the separators; never empty. *)
Fixpoint split_on (sep : ascii) (s : string) : list string :=
  match s with
  | EmptyString => [EmptyString]
  | String c s' =>
      if Ascii.eqb c sep then EmptyString :: split_on sep s'
      else match split_on sep s' with
           | [] => [String c EmptyString]
           | w :: ws => String c w :: ws
           end
  end.

Definition split (i : string) : list string := split_on "/"%char i.

(** [range(lo, hi)] *)
Definition range (lo hi : Z) : list Z :=
  map (fun k => lo + Z.of_nat k) (seq 0 (Z.to_nat (hi - lo))).

(** The entries of a mapping, in document order. *)
Fixpoint dict_lookup (d : dict) (k : string) : option value :=
  match d with
  | [] => None
  | (k', v) :: d' => if String.eqb k' k then Some v else dict_lookup d' k
  end.

(** In-place assignment to an entry: an existing key keeps its position, a
    new one goes last. *)
Fixpoint dict_set (d : dict) (k : string) (v : value) : dict :=
  match d with
  | [] => [(k, v)]
  | (k', v') :: d' =>
      if String.eqb k' k then (k', v) :: d' else (k', v') :: dict_set d' k v
  end.

(** The full key that an error report gives for the key [k] of the node at
    [seen]: the keys from the root down to [k], where an empty [k] is left
    out. *)
Definition full_key_of (seen : list key) (k : string) : list key :=
  seen ++ (if String.eqb k "" then [] else [KStr k]).

(** Modelled from the spec: [param[k]] for a string [k] on a node of the
    document, which is OmegaConf's item access and not part of the sources.
    Each segment must exist, else the lookup fails with a LookupError naming
    the missing segment and the path so far; [seen] is the position of
    [param] in the document.  A sequence takes integer subscripts only, and
    a Python scalar has no item access at all.  This is the entry as the
    document stores it: what reading the entry yields is [read_node]. *)
Definition item (seen : list key) (param : value) (k : string) : result value :=
  match param with
  | VDict d =>
      match dict_lookup d k with
      | Some v => Ok v
      | None => Err (ConfigKeyError (KStr k) (full_key_of seen k))
      end
  | VList _ => Err KeyValidationError
  | _ => Err TypeError
  end.

(** [param[n]] for the literal subscripts [0] and [1]: an element of a
    sequence, a character of a string; a mapping of the document has string
    keys, so that an integer is a missing key. *)
Definition item_int (seen : list key) (param : value) (n : nat) : result value :=
  match param with
  | VList l =>
      match nth_error l n with
      | Some v => Ok v
      | None => Err IndexError
      end
  | VStr s =>
      match String.get n s with
      | Some c => Ok (VStr (String c EmptyString))
      | None => Err IndexError
      end
  | VDict _ => Err (ConfigKeyError (KInt (Z.of_nat n)) (seen ++ [KInt (Z.of_nat n)]))
  | _ => Err TypeError
  end.

(** [d.get(k, None)]: an entry holding [None] and a missing entry read the
    same. *)
Definition get (d : dict) (k : string) : value :=
  match dict_lookup d k with
  | Some v => v
  | None => VNone
  end.

(** [*param] in a call: the elements of an iterable. *)
Fixpoint chars (s : string) : list value :=
  match s with
  | EmptyString => []
  | String c s' => VStr (String c EmptyString) :: chars s'
  end.

Definition unpack (param : value) : result (list value) :=
  match param with
  | VList l => Ok l
  | VStr s => Ok (chars s)
  | VDict d => Ok (map (fun kv => VStr (fst kv)) d)
  | _ => Err TypeError
  end.

(** An argument of [range]: an [int], or a [bool], which is one. *)
Definition as_int (v : value) : result Z :=
  match v with
  | VInt z => Ok z
  | VBool b => Ok (Z.b2z b)
  | _ => Err TypeError
  end.

(** What OmegaConf accepts as the value of a node: anything but an
    exception object, at any depth. *)
Fixpoint storable (v : value) : bool :=
  match v with
  | VExc _ => false
  | VList l => forallb storable l
  | VDict d => forallb (fun kv => storable (snd kv)) d
  | _ => true
  end.

(** [param[k] = v]: assignment to an entry of a mapping.  A sequence takes
    integer subscripts only, a scalar supports no assignment. *)
Definition setitem (param : value) (k : string) (v : value) : result value :=
  match param with
  | VDict d => if storable v then Ok (VDict (dict_set d k v)) else Err UnsupportedValueType
  | VList _ => Err KeyValidationError
  | _ => Err TypeError
  end.

(** [for key in path: param = param[key]] *)
Fixpoint descend (param : value) (seen : list key) (path : list string) : result value :=
  match path with
  | [] => Ok param
  | k :: rest =>
      match item seen param k with
      | Ok child => descend child (seen ++ [KStr k]) rest
      | Err e => Err e
      end
  end.

(** [param = config; for key in path[:-1]: param = param[key];
    param[path[-1]] = v].  The source mutates the node it reaches in place;
    here the document is rebuilt along the path.  [path[-1]] of an empty
    path raises [IndexError]. *)
Fixpoint assign (param : value) (seen : list key) (path : list string) (v : value)
  : result value :=
  match path with
  | [] => Err IndexError
  | [k] => setitem param k v
  | k :: rest =>
      match item seen param k with
      | Ok child =>
          match assign child (seen ++ [KStr k]) rest v, param with
          | Ok child', VDict d => Ok (VDict (dict_set d k child'))
          | Ok _, _ => Err TypeError
          | Err e, _ => Err e
          end
      | Err e => Err e
      end
  end.

(** ** The Trial interface *)

(** A search backend: [number], [suggest_categorical(key, choices)] and
    [suggest_float(key, *args)].  A suggestion may raise, and changes the
    state of the backend either way. *)
Class Trial (T : Type) : Type := {
  number : T -> Z;
  suggest_categorical : T -> string -> value -> result value * T;
  suggest_float : T -> string -> list value -> result value * T;
}.

(** A call made on the Trial, with its arguments. *)
Inductive call : Type :=
| SuggestCategorical (name : string) (choices : value)
| SuggestFloat (name : string) (args : list value).

Definition call_name (c : call) : string :=
  match c with
  | SuggestCategorical n _ | SuggestFloat n _ => n
  end.

(** ** The resolver *)

Section RunInfo.

Context {T : Type} `{Trial T}.

(** [str(x)] of an object that is not a string (a Python builtin). *)
Variable repr : value -> string.

(** The replacement field of an f-string. *)
Definition format (v : value) : string :=
  match v with
  | VStr s => s
  | _ => repr v
  end.

(** The resolver.  [config] is the document, [log] the resolution cache,
    [trial] the Trial with its current state, if one is active; [calls] is
    the record of the calls made on the Trial, oldest first. *)
Record RunInfo : Type := mkRunInfo {
  study_name : option string;
  config : value;
  log : gmap string value;
  trial : option T;
  calls : list call;
}.

Definition set_config (c : value) (s : RunInfo) : RunInfo :=
  mkRunInfo (study_name s) c (log s) (trial s) (calls s).

Definition set_log (l : gmap string value) (s : RunInfo) : RunInfo :=
  mkRunInfo (study_name s) (config s) l (trial s) (calls s).

(** A method of the resolver: an outcome and the state it leaves. *)
Definition M (A : Type) : Type := RunInfo -> result A * RunInfo.

Definition ret {A} (a : A) : M A := fun s => (Ok a, s).

Definition raise {A} (e : exn) : M A := fun s => (Err e, s).

Definition bind {A B} (m : M A) (f : A -> M B) : M B :=
  fun s =>
    match m s with
    | (Ok a, s') => f a s'
    | (Err e, s') => (Err e, s')
    end.

Definition lift {A} (r : result A) : M A := fun s => (r, s).

Definition gets {A} (f : RunInfo -> A) : M A := fun s => (Ok (f s), s).

Definition modify (f : RunInfo -> RunInfo) : M unit := fun s => (Ok tt, f s).

Notation "x <- m ;; k" := (bind m (fun x => k))
  (at level 100, m at next level, right associativity).
Notation "m ;;; k" := (bind m (fun _ => k))
  (at level 100, right associativity).

(** [trial.suggest_categorical(name, choices)] on the active Trial. *)
Definition call_categorical (name : string) (choices : value) : M value :=
  fun s =>
    match trial s with
    | None => (Err AttributeError, s)
    | Some t =>
        let (r, t') := suggest_categorical t name choices in
        (r, mkRunInfo (study_name s) (config s) (log s) (Some t')
              (calls s ++ [SuggestCategorical name choices]))
    end.

(** [trial.suggest_float(name, *args)] on the active Trial. *)
Definition call_float (name : string) (args : list value) : M value :=
  fun s =>
    match trial s with
    | None => (Err AttributeError, s)
    | Some t =>
        let (r, t') := suggest_float t name args in
        (r, mkRunInfo (study_name s) (config s) (log s) (Some t')
              (calls s ++ [SuggestFloat name args]))
    end.

Definition is_str (v : value) (s : string) : bool :=
  match v with
  | VStr s' => String.eqb s' s
  | _ => false
  end.

Definition is_None (v : value) : bool :=
  match v with
  | VNone => true
  | _ => false
  end.

Definition dict_msg : string :=
  "At the moment it is not possible to return dictionaries when querying parameters.".

(** [_sample_param(self, key, param, trial)].  [param] is a [DictConfig]
    (the only caller tests it), of entries [d] at position [key] of the
    document; [trial] is [self.trial], read from the state. *)
Definition _sample_param (key : string) (d : dict) : M value :=
  let here := map KStr (split key) in
  tr <- gets trial ;;
  match tr with
  | None => ret (get d "default")
  | Some _ =>
      let sample_type := get d "sample_type" in
      if negb (is_None sample_type) then
        if is_str sample_type "single_value" then
          lift (item here (VDict d) "sample_space")
        else if is_str sample_type "categorical" then
          space <- lift (item here (VDict d) "sample_space") ;;
          call_categorical key space
        else if is_str sample_type "float" then
          space <- lift (item here (VDict d) "sample_space") ;;
          args <- lift (unpack space) ;;
          call_float key args
        else if is_str sample_type "range" then
          space <- lift (item here (VDict d) "sample_space") ;;
          lo <- lift (item_int (here ++ [KStr "sample_space"]) space 0) ;;
          hi <- lift (item_int (here ++ [KStr "sample_space"]) space 1) ;;
          hi <- lift (as_int hi) ;;
          lo <- lift (as_int lo) ;;
          call_categorical key (VList (map VInt (range lo (hi + 1))))
        else
          raise (NotImplementedError
                   ("sample_type " +:+ format sample_type +:+ " is not supported"))
      else
        ret (VExc (NotImplementedError dict_msg))
  end.

(** [RunInfo.__getitem__]: Resolve. *)
Definition __getitem__ (i : string) : M value :=
  lg <- gets log ;;
  match lg !! i with
  | Some v => ret v
  | None =>
      cfg <- gets config ;;
      param <- lift (descend cfg [] (split i)) ;;
      param <- match param with
               | VDict d => _sample_param i d
               | _ => ret param
               end ;;
      modify (fun s => set_log (<[i := param]> (log s)) s) ;;;
      ret param
  end.

(** [RunInfo.__setitem__]: Overwrite. *)
Definition __setitem__ (i : string) (v : value) : M unit :=
  cfg <- gets config ;;
  cfg' <- lift (assign cfg [] (split i) v) ;;
  modify (set_config cfg') ;;;
  modify (fun s => set_log (<[i := v]> (log s)) s).

(** [RunInfo.is_log] *)
Definition is_log (s : RunInfo) : bool := true.

(** [RunInfo.trial_id] *)
Definition trial_id (s : RunInfo) : option Z :=
  match trial s with
  | Some t => Some (number t)
  | None => None
  end.

(** [RunInfo.__init__]: [log or {}] is the caller's dict unless it is
    missing or empty; nothing has been asked of the Trial yet.  The two
    resolvers that the constructor registers add nothing to the state:
    they are what reading a node does, [read_node] below. *)
Definition __init__ (name : option string) (cfg : value)
    (lg : option (gmap string value)) (tr : option T) : RunInfo :=
  mkRunInfo name cfg (default ∅ lg) tr [].

(** The caller's view: a run is a sequence of operations, and an exception
    raised by one of them does not end the run. *)
Inductive op : Type :=
| Resolve (p : string)
| Overwrite (p : string) (v : value).

Definition step (s : RunInfo) (o : op) : RunInfo :=
  match o with
  | Resolve p => snd (__getitem__ p s)
  | Overwrite p v => snd (__setitem__ p v s)
  end.

Definition run (ops : list op) (s : RunInfo) : RunInfo := fold_left step ops s.

Definition overwrites (p : string) (o : op) : bool :=
  match o with
  | Overwrite q _ => String.eqb q p
  | Resolve _ => false
  end.

(** Between [s] and [s'] the Trial was consulted at most once, and under
    the name [key]. *)
Definition consulted (key : string) (s s' : RunInfo) : Prop :=
  exists cs : list call,
    calls s' = calls s ++ cs
    /\ (length cs <= 1)%nat
    /\ Forall (fun c => call_name c = key) cs.

(** The state after [n] calls of Resolve on [p]. *)
Definition resolve_n (n : nat) (p : string) (s : RunInfo) : RunInfo :=
  run (repeat (Resolve p) n) s.

Definition is_resolve (o : op) : bool :=
  match o with
  | Resolve _ => true
  | Overwrite _ _ => false
  end.

(** A Trial whose suggestions always return. *)
Definition never_raises : Prop :=
  forall (t : T) (name : string),
    (forall choices, exists v t', suggest_categorical t name choices = (Ok v, t'))
    /\ (forall args, exists v t', suggest_float t name args = (Ok v, t')).

End RunInfo.

(** How many calls of a record were made under the name [p]. *)
Fixpoint count_named (p : string) (cs : list call) : nat :=
  match cs with
  | [] => 0%nat
  | c :: cs' =>
      if String.eqb (call_name c) p then S (count_named p cs') else count_named p cs'
  end.

(** Whether the separator occurs in a segment. *)
Fixpoint has_slash (s : string) : bool :=
  match s with
  | EmptyString => false
  | String c s' => if Ascii.eqb c "/"%char then true else has_slash s'
  end.

(** A path exists in a document when each of its segments is a key of the
    mapping that the segments before it lead to. *)
Fixpoint path_exists (param : value) (path : list string) : bool :=
  match path with
  | [] => true
  | k :: rest =>
      match param with
      | VDict d =>
          match dict_lookup d k with
          | Some child => path_exists child rest
          | None => false
          end
      | _ => false
      end
  end.


Arguments RunInfo T : clear implicits.
Arguments mkRunInfo {T} _ _ _ _ _.

(** ** Reading a node: references and missing values

    What the definitions above call an entry is what the document stores.
    OmegaConf evaluates a string node when it is read: ["???"] stands for
    a mandatory value that is missing, and [${hp:name}] calls the resolver
    that the constructor registers, [lambda param: self[f"hp/{param}"]],
    which is Resolve again.  The definitions below add this evaluation to
    the ones above; [__getitem__], [__setitem__] and [_sample_param] above
    are the resolver on a document in which no string is of these kinds
    ([lazy_getitem_plain] and [lazy_setitem_plain] below). *)

(** The marker of a missing value. *)
Definition is_missing (s : string) : bool := String.eqb s "???".

(** Whether a string holds the opening of an interpolation. *)
Fixpoint has_interp (s : string) : bool :=
  match s with
  | EmptyString => false
  | String c s' =>
      match s' with
      | String c' _ =>
          (Ascii.eqb c "$"%char && Ascii.eqb c' "{"%char) || has_interp s'
      | EmptyString => false
      end
  end.

Fixpoint strip_prefix (pre s : string) : option string :=
  match pre, s with
  | EmptyString, _ => Some s
  | String a pre', String b s' => if Ascii.eqb a b then strip_prefix pre' s' else None
  | String _ _, EmptyString => None
  end.

(** [s] without its last character, when that is a closing brace. *)
Fixpoint strip_closing (s : string) : option string :=
  match s with
  | EmptyString => None
  | String c s' =>
      match s' with
      | EmptyString => if Ascii.eqb c "}"%char then Some EmptyString else None
      | String _ _ =>
          match strip_closing s' with
          | Some body => Some (String c body)
          | None => None
          end
      end
  end.

Definition is_upper (c : ascii) : bool :=
  ((65 <=? nat_of_ascii c) && (nat_of_ascii c <=? 90))%nat.

Definition is_lower (c : ascii) : bool :=
  ((97 <=? nat_of_ascii c) && (nat_of_ascii c <=? 122))%nat.

Definition is_digit (c : ascii) : bool :=
  ((48 <=? nat_of_ascii c) && (nat_of_ascii c <=? 57))%nat.

Definition to_lower (c : ascii) : ascii :=
  if is_upper c then ascii_of_nat (nat_of_ascii c + 32) else c.

Fixpoint all_chars (f : ascii -> bool) (s : string) : bool :=
  match s with
  | EmptyString => true
  | String c s' => f c && all_chars f s'
  end.

Fixpoint lowercase (s : string) : string :=
  match s with
  | EmptyString => EmptyString
  | String c s' => String (to_lower c) (lowercase s')
  end.

(** The arguments of a resolver that the resolver receives as the very
    string written: letters, digits, [_] and [/], beginning with a letter,
    and none of the words that OmegaConf's grammar converts ([true],
    [null], ...). *)
Definition safe_param (s : string) : bool :=
  match s with
  | EmptyString => false
  | String c _ =>
      (is_upper c || is_lower c)
      && all_chars (fun c => is_upper c || is_lower c || is_digit c
                             || Ascii.eqb c "_"%char || Ascii.eqb c "/"%char) s
      && negb (existsb (String.eqb (lowercase s)) ["true"; "false"; "null"; "nan"; "inf"])
  end.

(** [hp_ref "${hp:name}" = Some "name"]. *)
Definition hp_ref (s : string) : option string :=
  match strip_prefix "${hp:" s with
  | Some rest =>
      match strip_closing rest with
      | Some param => if safe_param param then Some param else None
      | None => None
      end
  | None => None
  end.

(** A string node that reading leaves as it is. *)
Definition literal_str (s : string) : bool := negb (is_missing s) && negb (has_interp s).

(** A node that reading leaves as it is: anything but a string that is
    the missing marker or holds an interpolation. *)
Definition literal (v : value) : bool :=
  match v with
  | VStr s => literal_str s
  | _ => true
  end.

(** A value without such strings at any depth. *)
Fixpoint plain (v : value) : bool :=
  match v with
  | VStr s => literal_str s
  | VList l => forallb plain l
  | VDict d => forallb (fun kv => plain (snd kv)) d
  | _ => true
  end.

(** What a reference may resolve to for the reading to go on: a scalar. *)
Definition scalar (v : value) : bool :=
  match v with
  | VNone | VBool _ | VInt _ | VFloat _ _ => true
  | VStr s => literal_str s
  | _ => false
  end.

(** Where the model stops. *)
Inductive limit : Type :=
| Depth          (* the nesting of resolutions is deeper than the bound given *)
| Reentrant      (* a path is asked for while its own resolution is in progress *)
| Interpolation  (* an interpolation other than [${hp:name}]: the [py] resolver
                    evaluates Python code *)
| ResolverOutput (* a reference to a parameter whose value is not a scalar *)
| TrialReads.    (* the Trial is handed a container with nodes yet to be read *)

(** How an operation ends: with a value, with an exception, or beyond what
    the model covers. *)
Inductive outcome (A : Type) : Type :=
| Val (a : A)
| Raise (e : exn)
| Beyond (l : limit).
Arguments Val {A} a.
Arguments Raise {A} e.
Arguments Beyond {A} l.

Definition of_result {A} (r : result A) : outcome A :=
  match r with
  | Ok a => Val a
  | Err e => Raise e
  end.

Definition is_val {A} (o : outcome A) : bool :=
  match o with
  | Val _ => true
  | _ => false
  end.

Section Lazy.

Context {T : Type} `{Trial T}.
Variable repr : value -> string.

Definition L (A : Type) : Type := RunInfo T -> outcome A * RunInfo T.

Definition retL {A} (a : A) : L A := fun s => (Val a, s).

Definition raiseL {A} (e : exn) : L A := fun s => (Raise e, s).

Definition beyondL {A} (l : limit) : L A := fun s => (Beyond l, s).

Definition bindL {A B} (m : L A) (f : A -> L B) : L B :=
  fun s =>
    match m s with
    | (Val a, s') => f a s'
    | (Raise e, s') => (Raise e, s')
    | (Beyond l, s') => (Beyond l, s')
    end.

Definition liftL {A} (r : result A) : L A := fun s => (of_result r, s).

(** A method of the plain reading, run as it is. *)
Definition of_M {A} (m : RunInfo T -> result A * RunInfo T) : L A :=
  fun s => (of_result (fst (m s)), snd (m s)).

Definition getsL {A} (f : RunInfo T -> A) : L A := fun s => (Val (f s), s).

Definition modifyL (f : RunInfo T -> RunInfo T) : L unit := fun s => (Val tt, f s).

Notation "x <- m ;; k" := (bindL m (fun x => k))
  (at level 100, m at next level, right associativity).
Notation "m ;;; k" := (bindL m (fun _ => k))
  (at level 100, right associativity).

(** The value that the [hp] resolver hands back to OmegaConf: an exception
    raised inside a resolver comes out as [InterpolationResolutionError]. *)
Definition from_resolver (m : L value) : L value :=
  fun s =>
    match m s with
    | (Val v, s') => if scalar v then (Val v, s') else (Beyond ResolverOutput, s')
    | (Raise _, s') => (Raise InterpolationResolutionError, s')
    | (Beyond l, s') => (Beyond l, s')
    end.

(** Reading the node [v].  [rec] is the resolver's [self[...]]. *)
Definition read_node (rec : string -> L value) (v : value) : L value :=
  match v with
  | VStr s =>
      if is_missing s then raiseL MissingMandatoryValue
      else if has_interp s then
        match hp_ref s with
        | Some param => from_resolver (rec ("hp/" +:+ param))
        | None => beyondL Interpolation
        end
      else retL v
  | _ => retL v
  end.

(** [param[k]], read. *)
Definition lazy_item (rec : string -> L value) (seen : list key) (param : value)
    (k : string) : L value :=
  match item seen param k with
  | Ok v => read_node rec v
  | Err e => raiseL e
  end.

(** [param[n]], read. *)
Definition lazy_item_int (rec : string -> L value) (seen : list key) (param : value)
    (n : nat) : L value :=
  match item_int seen param n with
  | Ok v => read_node rec v
  | Err e => raiseL e
  end.

(** [d.get(k, None)], read: a missing mandatory value reads as the
    default. *)
Definition lazy_get (rec : string -> L value) (d : dict) (k : string) : L value :=
  match dict_lookup d k with
  | None => retL VNone
  | Some v =>
      match v with
      | VStr s => if is_missing s then retL VNone else read_node rec v
      | _ => retL v
      end
  end.

Fixpoint mapL {A B} (f : A -> L B) (l : list A) : L (list B) :=
  match l with
  | [] => retL []
  | a :: l' => b <- f a ;; bs <- mapL f l' ;; retL (b :: bs)
  end.

(** [*param]: the elements of a sequence are read one after the other. *)
Definition lazy_unpack (rec : string -> L value) (param : value) : L (list value) :=
  match param with
  | VList l => mapL (read_node rec) l
  | _ => liftL (unpack param)
  end.

(** An argument of a Trial method, once read: a scalar is a Python value;
    a container is a node still, which the Trial reads when and as it
    likes. *)
Definition to_trial (v : value) : L value :=
  match v with
  | VList _ | VDict _ => if plain v then retL v else beyondL TrialReads
  | _ => retL v
  end.

(** [for key in path: param = param[key]], each node read on the way. *)
Fixpoint lazy_descend (rec : string -> L value) (param : value) (seen : list key)
    (path : list string) : L value :=
  match path with
  | [] => retL param
  | k :: rest =>
      child <- lazy_item rec seen param k ;;
      lazy_descend rec child (seen ++ [KStr k]) rest
  end.

(** [_sample_param], with the node's entries read where the source reads
    them: [sample_space] once per subscript. *)
Definition lazy_sample_param (rec : string -> L value) (key : string) (d : dict)
  : L value :=
  let here := map KStr (split key) in
  tr <- getsL trial ;;
  match tr with
  | None => lazy_get rec d "default"
  | Some _ =>
      sample_type <- lazy_get rec d "sample_type" ;;
      if negb (is_None sample_type) then
        if is_str sample_type "single_value" then
          lazy_item rec here (VDict d) "sample_space"
        else if is_str sample_type "categorical" then
          space <- lazy_item rec here (VDict d) "sample_space" ;;
          space <- to_trial space ;;
          of_M (call_categorical key space)
        else if is_str sample_type "float" then
          space <- lazy_item rec here (VDict d) "sample_space" ;;
          args <- lazy_unpack rec space ;;
          args <- mapL to_trial args ;;
          of_M (call_float key args)
        else if is_str sample_type "range" then
          space <- lazy_item rec here (VDict d) "sample_space" ;;
          lo <- lazy_item_int rec (here ++ [KStr "sample_space"]) space 0 ;;
          space <- lazy_item rec here (VDict d) "sample_space" ;;
          hi <- lazy_item_int rec (here ++ [KStr "sample_space"]) space 1 ;;
          hi <- liftL (as_int hi) ;;
          lo <- liftL (as_int lo) ;;
          of_M (call_categorical key (VList (map VInt (range lo (hi + 1)))))
        else
          raiseL (NotImplementedError
                    ("sample_type " +:+ format repr sample_type +:+ " is not supported"))
      else
        retL (VExc (NotImplementedError dict_msg))
  end.

(** The body of [__getitem__]. *)
Definition getitem_body (rec : string -> L value) (i : string) : L value :=
  lg <- getsL log ;;
  match lg !! i with
  | Some v => retL v
  | None =>
      cfg <- getsL config ;;
      param <- lazy_descend rec cfg [] (split i) ;;
      param <- match param with
               | VDict d => lazy_sample_param rec i d
               | _ => retL param
               end ;;
      modifyL (fun s => set_log (<[i := param]> (log s)) s) ;;;
      retL param
  end.

(** [RunInfo.__getitem__] with the resolver in place.  [n] bounds the
    nesting of resolutions and [pending] lists the paths whose resolution
    is in progress.  A cached path is answered at once.  A path that is
    asked for again while it is pending cannot return in the code, where
    the nested call repeats the reads that led to it: the model stops. *)
Fixpoint lazy_getitem (n : nat) (pending : list string) (i : string) : L value :=
  fun s =>
    match log s !! i with
    | Some v => (Val v, s)
    | None =>
        match n with
        | O => (Beyond Depth, s)
        | S n' =>
            if existsb (String.eqb i) pending then (Beyond Reentrant, s)
            else getitem_body (lazy_getitem n' (i :: pending)) i s
        end
    end.

(** [RunInfo.__setitem__] with the resolver in place: the nodes down to the
    parent are read, then the entry is assigned.  The source mutates the
    parent it has reached; when it has reached one, [assign] gives the
    document that results. *)
Definition lazy_setitem (n : nat) (i : string) (v : value) : L unit :=
  cfg <- getsL config ;;
  parent <- lazy_descend (lazy_getitem n []) cfg [] (removelast (split i)) ;;
  liftL (setitem parent (List.last (split i) "") v) ;;;
  cfg' <- liftL (assign cfg [] (split i) v) ;;
  modifyL (set_config cfg') ;;;
  modifyL (fun s => set_log (<[i := v]> (log s)) s).

Definition lazy_step (n : nat) (s : RunInfo T) (o : op) : RunInfo T :=
  match o with
  | Resolve p => snd (lazy_getitem n [] p s)
  | Overwrite p v => snd (lazy_setitem n p v s)
  end.

Definition lazy_run (n : nat) (ops : list op) (s : RunInfo T) : RunInfo T :=
  fold_left (lazy_step n) ops s.

(** The values that a run writes into the document. *)
Definition writes_plain (o : op) : bool :=
  match o with
  | Resolve _ => true
  | Overwrite _ v => plain v
  end.

(** What the nodes read between [s] and [s'] can have done, through the
    resolver: the document is as before, the cache has kept what it held,
    a pending path has not been touched, and no name has been put to the
    Trial more than once, nor at all when its path was cached. *)
Record kept (pending : list string) (s s' : RunInfo T) : Prop := {
  kept_config : config s' = config s;
  kept_entries : forall q w, log s !! q = Some w -> log s' !! q = Some w;
  kept_pending : forall q, In q pending -> log s !! q = None ->
                           log s' !! q = None
                           /\ count_named q (calls s') = count_named q (calls s);
  kept_cached : forall q, is_Some (log s !! q) ->
                          count_named q (calls s') = count_named q (calls s);
  kept_count : forall q, (count_named q (calls s) <= count_named q (calls s')
                          <= S (count_named q (calls s)))%nat;
}.

(** A name that has been put to the Trial is cached by now, unless the
    operation did not return. *)
Definition settled {A} (s s' : RunInfo T) (o : outcome A) : Prop :=
  forall q, count_named q (calls s') = S (count_named q (calls s)) ->
            is_Some (log s' !! q) \/ is_val o = false.

(** A computation that only reads nodes. *)
Definition reads {A} (pending : list string) (m : L A) : Prop :=
  forall s o s', m s = (o, s') -> kept pending s s' /\ settled s s' o.

(** The Trial is asked at most once under [key] between [s] and [s'], and
    nothing else happens. *)
Definition asked (key : string) (s s' : RunInfo T) : Prop :=
  config s' = config s /\ log s' = log s
  /\ (calls s' = calls s
      \/ exists c, calls s' = calls s ++ [c] /\ call_name c = key).

(** A computation that reads nodes and then, perhaps, asks the Trial
    under [key]. *)
Definition asks {A} (key : string) (pending : list string) (m : L A) : Prop :=
  forall s o s', m s = (o, s') ->
    exists s1, kept pending s s1 /\ settled s s1 o /\ asked key s1 s'.

End Lazy.

(** ** A stub backend and a sample document *)

(** A Trial that answers with the first candidate (the lower bound for a
    float) and counts the suggestions it has been asked for. *)
#[export] Instance stub_trial : Trial nat := {|
  number := fun _ => 7;
  suggest_categorical := fun t _ choices =>
    match choices with
    | VList (v :: _) => (Ok v, S t)
    | _ => (Err (TrialError "no choices"), S t)
    end;
  suggest_float := fun t _ args =>
    match args with
    | [lo; _] => (Ok lo, S t)
    | _ => (Err TypeError, S t)
    end;
|}.

(** Formatting is irrelevant where the tag is a string. *)
Definition stub_repr (v : value) : string := "<object>".

Definition batch_size_node : dict :=
  [("sample_type", VStr "categorical");
   ("sample_space", VList [VInt 64; VInt 128]);
   ("default", VInt 32)].

Definition beta_node : dict :=
  [("sample_type", VStr "float");
   ("sample_space", VList [VFloat 1 (-2); VFloat 5 (-1)]);
   ("default", VFloat 1 (-1))].

Definition T_node : dict :=
  [("sample_type", VStr "range");
   ("sample_space", VList [VInt 1; VInt 3])].

Definition act_fn_node : dict :=
  [("sample_type", VStr "single_value");
   ("sample_space", VStr "gelu")].

Definition optim_node : dict :=
  [("w", VDict [("lr", VFloat 1 (-3))])].

Definition sched_node : dict :=
  [("sample_type", VStr "unknown_tag");
   ("sample_space", VInt 0)].

Definition hp_node : dict :=
  [("batch_size", VDict batch_size_node);
   ("epochs", VInt 10);
   ("beta", VDict beta_node);
   ("T", VDict T_node);
   ("act_fn", VDict act_fn_node);
   ("optim", VDict optim_node);
   ("sched", VDict sched_node)].

Definition sample_config : value := VDict [("hp", VDict hp_node)].

(** One resolver without a Trial and one with the stub. *)
Definition offline : RunInfo nat := __init__ (Some "study") sample_config None None.

Definition searching : RunInfo nat := __init__ (Some "study") sample_config None (Some 0%nat).

(** A Trial that never raises: it answers with the first candidate, or the
    first bound, and with [None] when there is none. *)
#[export] Instance lenient_trial : Trial Z := {|
  number := fun t => t;
  suggest_categorical := fun t _ choices =>
    match choices with
    | VList (v :: _) => (Ok v, t)
    | _ => (Ok VNone, t)
    end;
  suggest_float := fun t _ args =>
    match args with
    | lo :: _ => (Ok lo, t)
    | [] => (Ok VNone, t)
    end;
|}.

Definition tuning : RunInfo Z := __init__ None sample_config None (Some 4).

(** A document with nodes that are off the usual shape: a tag without a
    [sample_space], a [range] with one bound, with a [bool] and a third
    element, and with bounds in descending order. *)
Definition lr_node : dict := [("sample_type", VStr "float")].

Definition depth_node : dict :=
  [("sample_type", VStr "range"); ("sample_space", VList [VInt 3])].

Definition width_node : dict :=
  [("sample_type", VStr "range");
   ("sample_space", VList [VBool true; VInt 2; VInt 9])].

Definition k_node : dict :=
  [("sample_type", VStr "range"); ("sample_space", VList [VInt 5; VInt 1])].

Definition odd_config : value :=
  VDict [("hp", VDict [("lr", VDict lr_node);
                       ("depth", VDict depth_node);
                       ("width", VDict width_node);
                       ("k", VDict k_node)])].

Definition probing : RunInfo nat := __init__ None odd_config None (Some 0%nat).

(** A document with references and missing values. *)
Definition c_node : dict :=
  [("sample_type", VStr "categorical"); ("sample_space", VList [VInt 1; VInt 2])].

Definition e_node : dict := [("default", VStr "???")].

Definition f_node : dict :=
  [("sample_type", VStr "float");
   ("sample_space", VList [VFloat 1 (-1); VStr "${hp:a}"])].

Definition t_node : dict :=
  [("sample_type", VStr "${hp:kind}"); ("sample_space", VStr "${hp:a}")].

Definition linked_config : value :=
  VDict [("hp", VDict [("a", VInt 5);
                       ("b", VStr "${hp:a}");
                       ("c", VDict c_node);
                       ("d", VStr "${hp:c}");
                       ("m", VStr "???");
                       ("e", VDict e_node);
                       ("f", VDict f_node);
                       ("g", VStr "${hp:g}");
                       ("kind", VStr "single_value");
                       ("t", VDict t_node);
                       ("py", VStr "${py:1+1}")])].

Definition linked : RunInfo nat := __init__ None linked_config None (Some 0%nat).

Definition linked_offline : RunInfo nat := __init__ None linked_config None None.

(** * Properties *)

(** ** Primitives *)

Lemma split_on_nonempty sep s : split_on sep s <> [].
Proof.
  destruct s as [|c s]; simpl; [discriminate|].
  destruct (Ascii.eqb c sep); [discriminate|].
  destruct (split_on sep s); discriminate.
Qed.

Lemma range_length lo hi : length (range lo hi) = Z.to_nat (hi - lo).
Proof. unfold range. now rewrite length_map, length_seq. Qed.

Lemma range_In lo hi z : In z (range lo hi) <-> lo <= z < hi.
Proof.
  unfold range. rewrite in_map_iff. split.
  - intros (k & <- & Hk). apply in_seq in Hk. lia.
  - intros Hz. exists (Z.to_nat (z - lo)). split; [lia|].
    apply in_seq. lia.
Qed.

Lemma range_nth lo hi k :
  (k < Z.to_nat (hi - lo))%nat -> nth_error (range lo hi) k = Some (lo + Z.of_nat k).
Proof.
  intros Hk. unfold range.
  rewrite nth_error_map, nth_error_nth' with (d := 0%nat) by (rewrite length_seq; lia).
  rewrite seq_nth by lia. reflexivity.
Qed.

Lemma dict_lookup_set_eq d k v : dict_lookup (dict_set d k v) k = Some v.
Proof.
  induction d as [|[k' v'] d IH]; simpl.
  - now rewrite String.eqb_refl.
  - destruct (String.eqb k' k) eqn:E; simpl; rewrite E; auto.
Qed.

Lemma dict_lookup_set_ne d k k' v :
  k <> k' -> dict_lookup (dict_set d k v) k' = dict_lookup d k'.
Proof.
  intros Hne. induction d as [|[k0 v0] d IH]; simpl.
  - destruct (String.eqb_spec k k'); congruence.
  - destruct (String.eqb_spec k0 k) as [->|]; simpl.
    + destruct (String.eqb_spec k k'); congruence.
    + now rewrite IH.
Qed.


(** ** The resolver *)

Section Properties.

Context {T : Type} `{Trial T}.
Variable repr : value -> string.

Implicit Types (s : RunInfo T) (p : string) (v : value).

Ltac unfold_M :=
  unfold bind, gets, ret, raise, lift, modify, call_categorical, call_float,
    set_log, set_config in *;
  simpl in *.

Ltac split_match :=
  match goal with
  | Hm : context [match ?x with _ => _ end] |- _ => destruct x eqn:?
  | Hm : context [if ?x then _ else _] |- _ => destruct x eqn:?
  | Hm : context [let (_, _) := ?x in _] |- _ => destruct x eqn:?
  end; simpl in *.

Lemma consulted_refl key s s' : calls s' = calls s -> consulted key s s'.
Proof. intros E. exists []. rewrite E, app_nil_r. split_and!; auto. Qed.

Lemma consulted_one key s s' c :
  calls s' = calls s ++ [c] -> call_name c = key -> consulted key s s'.
Proof. intros E Hc. exists [c]. split_and!; auto. Qed.

(** The sampling policy touches neither the document nor the cache, keeps
    a Trial where there is one, and consults it at most once, under the
    name of the path. *)
Lemma sample_param_frame key d s r s' :
  _sample_param repr key d s = (r, s') ->
  study_name s' = study_name s /\ config s' = config s /\ log s' = log s
  /\ (trial s = None -> s' = s)
  /\ (is_Some (trial s) -> is_Some (trial s'))
  /\ consulted key s s'.
Proof.
  unfold _sample_param. unfold_M. intros Hrun.
  destruct (trial s) as [t|] eqn:Ht.
  - assert (Hno : trial s = None -> s' = s) by congruence.
    assert (Hsome : forall t' : T, is_Some (Some t')) by (intros; eexists; reflexivity).
    repeat first [ rewrite Ht in Hrun; simpl in Hrun | split_match ].
    all: inversion Hrun; subst; simpl.
    all: split_and!; auto.
    all: try now apply consulted_refl.
    all: try (eapply consulted_one; simpl; reflexivity).
    all: intros; congruence.
  - inversion Hrun; subst.
    split_and!; auto; [intros [? ?]; congruence | now apply consulted_refl].
Qed.

(** A cached path is answered from the cache. *)
Lemma getitem_hit s p v :
  log s !! p = Some v -> __getitem__ repr p s = (Ok v, s).
Proof. intros Hhit. unfold __getitem__. unfold_M. now rewrite Hhit. Qed.

(** A path that is not cached is looked up in the document. *)
Lemma getitem_miss s p :
  log s !! p = None ->
  __getitem__ repr p s =
    match descend (config s) [] (split p) with
    | Err e => (Err e, s)
    | Ok (VDict d) =>
        match _sample_param repr p d s with
        | (Ok v, s') => (Ok v, set_log (<[p := v]> (log s')) s')
        | (Err e, s') => (Err e, s')
        end
    | Ok v => (Ok v, set_log (<[p := v]> (log s)) s)
    end.
Proof.
  intros Hmiss. unfold __getitem__. unfold_M. rewrite Hmiss.
  destruct (descend (config s) [] (split p)) as [param|e]; [|reflexivity].
  destruct param; reflexivity.
Qed.

(** Resolve as a whole: what it leaves alone, and what it does to the
    cache. *)
Lemma getitem_frame s p r s' :
  __getitem__ repr p s = (r, s') ->
  study_name s' = study_name s /\ config s' = config s
  /\ (is_Some (trial s) -> is_Some (trial s'))
  /\ (trial s = None -> trial s' = None)
  /\ consulted p s s'
  /\ match r with
     | Ok v => log s' !! p = Some v
               /\ forall q, q <> p -> log s' !! q = log s !! q
     | Err _ => log s' = log s
     end.
Proof.
  destruct (log s !! p) as [v|] eqn:Hlog.
  - rewrite (getitem_hit _ _ _ Hlog). intros [= <- <-].
    split_and!; auto. now apply consulted_refl.
  - rewrite (getitem_miss _ _ Hlog).
    destruct (descend (config s) [] (split p)) as [param|e].
    + assert (Hplain : (Ok param, set_log (<[p := param]> (log s)) s) = (r, s') ->
                       study_name s' = study_name s /\ config s' = config s
                       /\ (is_Some (trial s) -> is_Some (trial s'))
                       /\ (trial s = None -> trial s' = None)
                       /\ consulted p s s'
                       /\ match r with
                          | Ok v => log s' !! p = Some v
                                    /\ forall q, q <> p -> log s' !! q = log s !! q
                          | Err _ => log s' = log s
                          end).
      { intros [= <- <-]. simpl. split_and!; auto.
        - now apply consulted_refl.
        - apply lookup_insert_eq.
        - intros q Hq. now apply lookup_insert_ne. }
      destruct param; auto.
      destruct (_sample_param repr p d s) as [[v|e] s1] eqn:Hsp;
        destruct (sample_param_frame _ _ _ _ _ Hsp)
          as (Hn & Hc & Hl & Hnone & Hsome & Hcons);
        intros [= <- <-]; simpl.
      * split_and!; auto.
        -- intros Hs. specialize (Hnone Hs). congruence.
        -- apply lookup_insert_eq.
        -- intros q Hq. rewrite lookup_insert_ne by auto. now rewrite Hl.
      * split_and!; auto. intros Hs. specialize (Hnone Hs). congruence.
    + intros [= <- <-]. split_and!; auto. now apply consulted_refl.
Qed.

Lemma resolve_n_S n s p :
  resolve_n repr (S n) p s = resolve_n repr n p (snd (__getitem__ repr p s)).
Proof. reflexivity. Qed.

Lemma resolve_n_hit n s p v :
  log s !! p = Some v -> resolve_n repr n p s = s.
Proof.
  intros Hhit. induction n as [|n IH]; [reflexivity|].
  rewrite resolve_n_S, (getitem_hit _ _ _ Hhit). exact IH.
Qed.

(** After a first success the path is cached and the state is settled. *)
Lemma resolve_settled s p v s1 :
  __getitem__ repr p s = (Ok v, s1) ->
  log s1 !! p = Some v /\ forall n, resolve_n repr (S n) p s = s1.
Proof.
  intros Hfirst.
  destruct (getitem_frame _ _ _ _ Hfirst) as (_ & _ & _ & _ & _ & Hlog & _).
  split; [exact Hlog|].
  intros n. rewrite resolve_n_S, Hfirst. simpl. now apply resolve_n_hit with v.
Qed.

(** Overwrite either fails and changes nothing, or writes the document
    and the cache and leaves the Trial alone. *)
Lemma setitem_run s p v :
  __setitem__ p v s =
    match assign (config s) [] (split p) v with
    | Ok cfg' => (Ok tt, set_log (<[p := v]> (log s)) (set_config cfg' s))
    | Err e => (Err e, s)
    end.
Proof.
  unfold __setitem__. unfold_M.
  destruct (assign (config s) [] (split p) v); reflexivity.
Qed.

Lemma assign_cons param seen k k2 rest v :
  assign param seen (k :: k2 :: rest) v =
    match item seen param k with
    | Ok child =>
        match assign child (seen ++ [KStr k]) (k2 :: rest) v, param with
        | Ok child', VDict d => Ok (VDict (dict_set d k child'))
        | Ok _, _ => Err TypeError
        | Err e, _ => Err e
        end
    | Err e => Err e
    end.
Proof. reflexivity. Qed.

Lemma descend_cons param seen k rest :
  descend param seen (k :: rest) =
    match item seen param k with
    | Ok child => descend child (seen ++ [KStr k]) rest
    | Err e => Err e
    end.
Proof. reflexivity. Qed.

Lemma assign_descend path : forall param seen v param',
  assign param seen path v = Ok param' -> descend param' seen path = Ok v.
Proof.
  induction path as [|k rest IH]; intros param seen v param' Ha; [discriminate|].
  destruct rest as [|k2 rest].
  - simpl in *. unfold setitem in Ha.
    destruct param; try discriminate.
    destruct (storable v); [|discriminate].
    injection Ha as <-. simpl. now rewrite dict_lookup_set_eq.
  - rewrite assign_cons in Ha. rewrite descend_cons.
    destruct (item seen param k) as [child|e] eqn:Hitem; [|discriminate].
    destruct (assign child (seen ++ [KStr k]) (k2 :: rest) v) as [child'|e] eqn:Hrec;
      destruct param; try discriminate.
    injection Ha as <-. simpl item. rewrite dict_lookup_set_eq.
    now apply IH with child.
Qed.

(** Overwrite goes through when the segments before the last lead to a
    mapping and the value is one that a node can hold. *)
Lemma assign_ok path : forall param seen v d,
  path <> [] ->
  descend param seen (removelast path) = Ok (VDict d) ->
  storable v = true ->
  exists param', assign param seen path v = Ok param'.
Proof.
  induction path as [|k rest IH]; intros param seen v d Hne Hd Hv; [congruence|].
  destruct rest as [|k2 rest].
  - simpl in *. injection Hd as ->. simpl. rewrite Hv. eauto.
  - change (removelast (k :: k2 :: rest)) with (k :: removelast (k2 :: rest)) in Hd.
    rewrite descend_cons in Hd. rewrite assign_cons.
    destruct (item seen param k) as [child|e] eqn:Hitem; [|discriminate].
    destruct (IH child (seen ++ [KStr k]) v d) as [child' Hc]; [discriminate|auto|auto|].
    rewrite Hc.
    destruct param; simpl in Hitem; try discriminate. eauto.
Qed.

(** An operation other than an Overwrite of [p] keeps what the cache
    holds for [p]. *)
Lemma step_keeps_cached s p v o :
  overwrites p o = false ->
  log s !! p = Some v ->
  log (step repr s o) !! p = Some v.
Proof.
  intros Ho Hhit. destruct o as [q|q w]; simpl.
  - destruct (__getitem__ repr q s) as [r s'] eqn:Hq.
    destruct (getitem_frame _ _ _ _ Hq) as (_ & _ & _ & _ & _ & Hlog). simpl.
    destruct r as [x|e]; [|congruence].
    destruct Hlog as [Hp Hother].
    destruct (decide (p = q)) as [->|Hne].
    + rewrite (getitem_hit _ _ _ Hhit) in Hq. congruence.
    + now rewrite Hother.
  - simpl in Ho. apply String.eqb_neq in Ho.
    rewrite setitem_run.
    destruct (assign (config s) [] (split q) w); simpl; [|exact Hhit].
    now rewrite lookup_insert_ne.
Qed.

Lemma run_keeps_cached ops : forall s p v,
  forallb (fun o => negb (overwrites p o)) ops = true ->
  log s !! p = Some v ->
  log (run repr ops s) !! p = Some v.
Proof.
  induction ops as [|o ops IH]; intros s p v Hops Hhit; [exact Hhit|].
  simpl in Hops. apply andb_prop in Hops as [Ho Hops].
  apply negb_true_iff in Ho.
  simpl. apply IH; [exact Hops|]. now apply step_keeps_cached.
Qed.

(** C4. Overwrite takes precedence.  Overwrite(p, v) returns when the
    segments of [p] before the last lead to a mapping of the document (and
    [v] is a value that a node can hold); once it has returned, and until
    [p] is overwritten again, Resolve(p) returns [v] and leaves the state
    as it is, in particular the Trial and the record of its calls,
    whatever the document defines at [p] and whatever was resolved or
    overwritten elsewhere in between. *)
Theorem overwrite_precedence s p v :
  (forall d,
      descend (config s) [] (removelast (split p)) = Ok (VDict d) ->
      storable v = true ->
      exists s1, __setitem__ p v s = (Ok tt, s1))
  /\ (forall s1 ops,
         __setitem__ p v s = (Ok tt, s1) ->
         forallb (fun o => negb (overwrites p o)) ops = true ->
         __getitem__ repr p (run repr ops s1) = (Ok v, run repr ops s1)).
Proof.
  split.
  - intros d Hd Hv. rewrite setitem_run.
    destruct (assign_ok (split p) (config s) [] v d) as [cfg' ->]; eauto.
    apply split_on_nonempty.
  - intros s1 ops Hset Hops. rewrite setitem_run in Hset.
    destruct (assign (config s) [] (split p) v) as [cfg'|e]; [|discriminate].
    injection Hset as <-.
    apply getitem_hit, run_keeps_cached; [exact Hops|].
    simpl. apply lookup_insert_eq.
Qed.

Lemma is_str_false tag name : tag <> VStr name -> is_str tag name = false.
Proof.
  intros Hne. destruct tag; simpl; auto.
  destruct (String.eqb_spec s name); congruence.
Qed.

Lemma is_None_false tag : tag <> VNone -> is_None tag = false.
Proof. destruct tag; simpl; congruence. Qed.

(** C5. A [range] node with the integer bounds [(lo, hi)], looked up
    while a Trial is active: the Trial is asked once for a categorical
    suggestion under the name of the path, the candidates are the integers
    of [lo..hi] in ascending order, each once, and what the Trial answers
    is what Resolve returns (and caches). *)
Theorem range_expansion s p d lo hi t :
  trial s = Some t ->
  log s !! p = None ->
  descend (config s) [] (split p) = Ok (VDict d) ->
  get d "sample_type" = VStr "range" ->
  dict_lookup d "sample_space" = Some (VList [VInt lo; VInt hi]) ->
  let candidates := range lo (hi + 1) in
  let (r, t') := suggest_categorical t p (VList (map VInt candidates)) in
  let s' := mkRunInfo (study_name s) (config s) (log s) (Some t')
              (calls s ++ [SuggestCategorical p (VList (map VInt candidates))]) in
  (forall z, In z candidates <-> lo <= z <= hi)
  /\ length candidates = Z.to_nat (hi - lo + 1)
  /\ (forall k, (k < length candidates)%nat ->
                nth_error candidates k = Some (lo + Z.of_nat k))
  /\ __getitem__ repr p s =
       match r with
       | Ok v => (Ok v, set_log (<[p := v]> (log s)) s')
       | Err e => (Err e, s')
       end.
Proof.
  intros Htrial Hmiss Hnode Htype Hspace candidates.
  destruct (suggest_categorical t p (VList (map VInt candidates))) as [r t'] eqn:Hsug.
  split_and!.
  - intros z. unfold candidates. rewrite range_In. lia.
  - unfold candidates. rewrite range_length. f_equal. lia.
  - intros k Hk. unfold candidates in *. rewrite range_length in Hk.
    now apply range_nth.
  - rewrite (getitem_miss _ _ Hmiss), Hnode.
    unfold _sample_param. unfold_M. rewrite Htrial, Htype. simpl.
    rewrite Hspace. simpl. rewrite Htrial. fold candidates. rewrite Hsug.
    destruct r; reflexivity.
Qed.


(** C9. Resolve does not write the document: whether it returns or
    raises, the tree, the study name and the presence of a Trial are as
    before, so that of the resolver's own state only the cache can have
    changed.  Overwrite is the operation that writes the tree: after it has
    returned, the path leads to the value. *)
Theorem resolve_preserves_config s p :
  let s' := snd (__getitem__ repr p s) in
  config s' = config s
  /\ study_name s' = study_name s
  /\ (trial s = None -> trial s' = None)
  /\ (is_Some (trial s) -> is_Some (trial s'))
  /\ (forall v s1,
         __setitem__ p v s = (Ok tt, s1) ->
         descend (config s1) [] (split p) = Ok v).
Proof.
  intros s'. unfold s'.
  destruct (__getitem__ repr p s) as [r s1] eqn:Hrun.
  destruct (getitem_frame _ _ _ _ Hrun) as (Hn & Hc & Hsome & Hnone & _).
  simpl. split_and!; auto.
  intros v s2 Hset. rewrite setitem_run in Hset.
  destruct (assign (config s) [] (split p) v) as [cfg'|e] eqn:Ha; [|discriminate].
  injection Hset as <-. simpl. now apply assign_descend with (config s).
Qed.

(** Entries taken as they are stored, a failing operation leaves the
    cache alone: when Resolve or Overwrite raises, the cache is the one
    from before the call (and a failing Overwrite changes nothing at
    all). *)
Lemma plain_failure_keeps_log s p v e s1 :
  __getitem__ repr p s = (Err e, s1) \/ __setitem__ p v s = (Err e, s1) ->
  log s1 = log s
  /\ (__setitem__ p v s = (Err e, s1) -> s1 = s).
Proof.
  intros Hfail. split.
  - destruct Hfail as [Hget|Hset].
    + now destruct (getitem_frame _ _ _ _ Hget) as (_ & _ & _ & _ & _ & Hlog).
    + rewrite setitem_run in Hset.
      destruct (assign (config s) [] (split p) v); [discriminate|congruence].
  - intros Hset. rewrite setitem_run in Hset.
    destruct (assign (config s) [] (split p) v); [discriminate|congruence].
Qed.

(** What the code does with a mapping that has no [sample_type] while a
    Trial is active: the exception object is the value of the path. *)
Lemma untagged_mapping s p d t :
  trial s = Some t ->
  log s !! p = None ->
  descend (config s) [] (split p) = Ok (VDict d) ->
  get d "sample_type" = VNone ->
  __getitem__ repr p s =
    (Ok (VExc (NotImplementedError dict_msg)),
     set_log (<[p := VExc (NotImplementedError dict_msg)]> (log s)) s).
Proof.
  intros Htrial Hmiss Hnode Htype.
  rewrite (getitem_miss _ _ Hmiss), Hnode.
  unfold _sample_param. unfold_M. rewrite Htrial, Htype. simpl.
  now rewrite Htrial.
Qed.

(** ** The sampling policy, branch by branch *)

(** X4. A node that carries one of the four known tags but no [sample_space],
    looked up while a Trial is active: the lookup of [sample_space] raises
    a LookupError naming it, the Trial is not consulted and the state is as
    before. *)
Theorem missing_sample_space s p d t tag :
  trial s = Some t ->
  log s !! p = None ->
  descend (config s) [] (split p) = Ok (VDict d) ->
  get d "sample_type" = VStr tag ->
  In tag ["single_value"; "categorical"; "float"; "range"] ->
  dict_lookup d "sample_space" = None ->
  __getitem__ repr p s =
    (Err (ConfigKeyError (KStr "sample_space")
            (map KStr (split p) ++ [KStr "sample_space"])), s).
Proof.
  intros Htrial Hmiss Hnode Htype Htag Hspace.
  rewrite (getitem_miss _ _ Hmiss), Hnode.
  unfold _sample_param. unfold_M. rewrite Htrial, Htype.
  simpl in Htag.
  destruct Htag as [<-|[<-|[<-|[<-|[]]]]]; simpl; now rewrite Hspace.
Qed.

(** X5. The [range] branch reads the first two elements of [sample_space] and
    nothing else: further elements are ignored, and a [bool] counts as the
    integer it is.  With the bounds [lo] and [hi] the Trial is offered
    [range(lo, hi + 1)], which is empty when [hi < lo]: the resolver asks
    the Trial all the same. *)
Theorem range_bounds s p d t a b rest lo hi :
  trial s = Some t ->
  log s !! p = None ->
  descend (config s) [] (split p) = Ok (VDict d) ->
  get d "sample_type" = VStr "range" ->
  dict_lookup d "sample_space" = Some (VList (a :: b :: rest)) ->
  as_int a = Ok lo ->
  as_int b = Ok hi ->
  let candidates := range lo (hi + 1) in
  let (r, t') := suggest_categorical t p (VList (map VInt candidates)) in
  let s' := mkRunInfo (study_name s) (config s) (log s) (Some t')
              (calls s ++ [SuggestCategorical p (VList (map VInt candidates))]) in
  (hi < lo -> candidates = [])
  /\ __getitem__ repr p s =
       match r with
       | Ok v => (Ok v, set_log (<[p := v]> (log s)) s')
       | Err e => (Err e, s')
       end.
Proof.
  intros Htrial Hmiss Hnode Htype Hspace Ha Hb candidates.
  destruct (suggest_categorical t p (VList (map VInt candidates))) as [r t'] eqn:Hsug.
  split.
  - intros Hlt. unfold candidates, range.
    replace (Z.to_nat (hi + 1 - lo)) with 0%nat by lia. reflexivity.
  - rewrite (getitem_miss _ _ Hmiss), Hnode.
    unfold _sample_param. unfold_M. rewrite Htrial, Htype. simpl.
    rewrite Hspace. simpl. rewrite Hb. simpl. rewrite Ha. simpl.
    rewrite Htrial. fold candidates. rewrite Hsug.
    destruct r; reflexivity.
Qed.

Lemma path_exists_descend path : forall param seen,
  path_exists param path = true -> exists node, descend param seen path = Ok node.
Proof.
  induction path as [|k rest IH]; intros param seen Hex; [simpl; eauto|].
  simpl in Hex. destruct param; try discriminate.
  destruct (dict_lookup d k) as [child|] eqn:Hk; [|discriminate].
  rewrite descend_cons. simpl item. rewrite Hk. now apply IH.
Qed.

(** Entries taken as they are stored, and without a Trial, Resolve of a
    path that exists in the document always returns, whatever
    [sample_type] and [sample_space] say or lack, and makes no call. *)
Lemma plain_offline_returns s p :
  trial s = None ->
  path_exists (config s) (split p) = true ->
  exists v s', __getitem__ repr p s = (Ok v, s')
               /\ log s' !! p = Some v
               /\ calls s' = calls s.
Proof.
  intros Htrial Hex.
  destruct (log s !! p) as [v|] eqn:Hlog.
  - exists v, s. now rewrite (getitem_hit _ _ _ Hlog).
  - destruct (path_exists_descend _ (config s) [] Hex) as [node Hnode].
    rewrite (getitem_miss _ _ Hlog), Hnode.
    assert (Hplain : exists v s', (Ok node, set_log (<[p := node]> (log s)) s) = (Ok v, s')
                                  /\ log s' !! p = Some v /\ calls s' = calls s).
    { eexists _, _. split_and!; [reflexivity | apply lookup_insert_eq | reflexivity]. }
    destruct node; auto.
    unfold _sample_param. unfold_M. rewrite Htrial.
    eexists _, _. split_and!; [reflexivity | apply lookup_insert_eq | reflexivity].
Qed.

(** ** Runs of operations *)

Lemma resolve_keeps_cached s q w o :
  is_resolve o = true ->
  log s !! q = Some w ->
  log (step repr s o) !! q = Some w.
Proof.
  intros Ho. apply step_keeps_cached. now destruct o.
Qed.

Lemma resolve_adds_own_path s p q w :
  log (snd (__getitem__ repr p s)) !! q = Some w ->
  log s !! q = Some w \/ q = p.
Proof.
  destruct (__getitem__ repr p s) as [r s'] eqn:Hrun.
  destruct (getitem_frame _ _ _ _ Hrun) as (_ & _ & _ & _ & _ & Hlog). simpl.
  destruct r as [v|e].
  - destruct Hlog as [_ Hother]. intros Hq.
    destruct (decide (q = p)) as [->|Hne]; [now right|].
    left. now rewrite <- Hother.
  - rewrite Hlog. auto.
Qed.

(** Entries taken as they are stored, the cache only grows under
    Resolve: over any run of Resolve calls the document stays the same,
    every entry of the cache keeps its value, and an entry that was not
    there before belongs to a path that the run resolved. *)
Lemma plain_run_cache ops : forall s,
  forallb is_resolve ops = true ->
  config (run repr ops s) = config s
  /\ (forall q w, log s !! q = Some w -> log (run repr ops s) !! q = Some w)
  /\ (forall q w, log (run repr ops s) !! q = Some w ->
                  log s !! q = Some w \/ In (Resolve q) ops).
Proof.
  induction ops as [|o ops IH]; intros s Hops; [simpl; auto|].
  simpl in Hops. apply andb_prop in Hops as [Ho Hops].
  destruct (IH (step repr s o) Hops) as (Hcfg & Hkeep & Hnew).
  change (run repr (o :: ops) s) with (run repr ops (step repr s o)).
  split_and!.
  - rewrite Hcfg. destruct o as [p|p v]; [|discriminate]. simpl.
    destruct (__getitem__ repr p s) as [r s'] eqn:Hrun.
    now destruct (getitem_frame _ _ _ _ Hrun) as (_ & Hc & _).
  - intros q w Hq. apply Hkeep. now apply resolve_keeps_cached.
  - intros q w Hq. destruct (Hnew q w Hq) as [Hstep|Hin]; [|right; now right].
    destruct o as [p|p v]; [|discriminate]. simpl in Hstep.
    destruct (resolve_adds_own_path _ _ _ _ Hstep) as [Hold| ->]; [now left|].
    right. now left.
Qed.

(** X9. A resolver built on a caller's log answers a path of that log with the
    logged value, from the start and after any operations short of an
    Overwrite of the path: neither the document nor the Trial is asked. *)
Theorem seeded_log_precedence name cfg lg tr p v ops :
  lg !! p = Some v ->
  forallb (fun o => negb (overwrites p o)) ops = true ->
  let s := run repr ops (__init__ name cfg (Some lg) tr) in
  __getitem__ repr p s = (Ok v, s).
Proof.
  intros Hseed Hops s.
  apply getitem_hit. unfold s. now apply run_keeps_cached.
Qed.


Lemma assign_head param seen k rest v param' :
  assign param seen (k :: rest) v = Ok param' ->
  exists d x,
    param = VDict d /\ param' = VDict (dict_set d k x)
    /\ (rest <> [] ->
        exists child, dict_lookup d k = Some child
                      /\ assign child (seen ++ [KStr k]) rest v = Ok x).
Proof.
  intros Ha. destruct rest as [|k2 rest].
  - simpl in Ha. unfold setitem in Ha.
    destruct param; try discriminate.
    destruct (storable v); [|discriminate].
    injection Ha as <-. exists d, v. split_and!; auto. congruence.
  - rewrite assign_cons in Ha.
    destruct (item seen param k) as [child|e] eqn:Hitem; [|discriminate].
    destruct (assign child (seen ++ [KStr k]) (k2 :: rest) v) as [x|e] eqn:Hrec;
      destruct param; try discriminate.
    injection Ha as <-. exists d, x. split_and!; auto.
    intros _. exists child. split; [|exact Hrec].
    simpl in Hitem. destruct (dict_lookup d k); congruence.
Qed.

Lemma assign_branch common : forall param seen k k' rest rest' v param',
  k <> k' ->
  assign param seen (common ++ k :: rest) v = Ok param' ->
  descend param' seen (common ++ k' :: rest')
  = descend param seen (common ++ k' :: rest').
Proof.
  induction common as [|c cs IH]; intros param seen k k' rest rest' v param' Hne Ha.
  - simpl app in *.
    destruct (assign_head _ _ _ _ _ _ Ha) as (d & x & -> & -> & _).
    rewrite !descend_cons. simpl item. now rewrite dict_lookup_set_ne.
  - change ((c :: cs) ++ k :: rest) with (c :: (cs ++ k :: rest)) in Ha.
    change ((c :: cs) ++ k' :: rest') with (c :: (cs ++ k' :: rest')).
    destruct (assign_head _ _ _ _ _ _ Ha) as (d & x & -> & -> & Hrest).
    destruct Hrest as (child & Hchild & Hrec); [now destruct cs|].
    rewrite !descend_cons. simpl item.
    rewrite dict_lookup_set_eq, Hchild.
    now apply IH with k rest v.
Qed.

(** X11. Overwrite writes one place of the document.  A path that branches off
    the overwritten one (the two share their first segments, then differ)
    leads to what it led to before, or fails as it failed before. *)
Theorem overwrite_frame s p q v s1 common k k' rest rest' :
  split p = common ++ k :: rest ->
  split q = common ++ k' :: rest' ->
  k <> k' ->
  __setitem__ p v s = (Ok tt, s1) ->
  descend (config s1) [] (split q) = descend (config s) [] (split q).
Proof.
  intros Hp Hq Hne Hset. rewrite setitem_run in Hset.
  destruct (assign (config s) [] (split p) v) as [cfg'|e] eqn:Ha; [|discriminate].
  injection Hset as <-. simpl. rewrite Hq. rewrite Hp in Ha.
  now apply assign_branch with k rest v.
Qed.

Lemma assign_parent_error path : forall param seen v e,
  descend param seen (removelast path) = Err e ->
  assign param seen path v = Err e.
Proof.
  induction path as [|k rest IH]; intros param seen v e Hd; [discriminate|].
  destruct rest as [|k2 rest]; [discriminate|].
  change (removelast (k :: k2 :: rest)) with (k :: removelast (k2 :: rest)) in Hd.
  rewrite descend_cons in Hd. rewrite assign_cons.
  destruct (item seen param k) as [child|e'] eqn:Hitem; [|exact Hd].
  rewrite (IH _ _ v _ Hd). now destruct param.
Qed.

Lemma count_named_app p cs1 cs2 :
  count_named p (cs1 ++ cs2) = (count_named p cs1 + count_named p cs2)%nat.
Proof.
  induction cs1 as [|c cs1 IH]; simpl; [reflexivity|].
  destruct (String.eqb (call_name c) p); simpl; now rewrite IH.
Qed.

Lemma count_named_other p q cs :
  Forall (fun c => call_name c = q) cs -> q <> p -> count_named p cs = 0%nat.
Proof.
  intros Hall Hne. induction Hall as [|c cs Hc _ IH]; simpl; [reflexivity|].
  rewrite Hc. destruct (String.eqb_spec q p); [congruence|exact IH].
Qed.

(** Entries taken as they are stored, the Trial is consulted by Resolve
    alone, once at most per call and under the name of the path being
    resolved: over a run, the calls made are no more than the Resolve
    operations of the run, and each bears the name of a path that the run
    resolved. *)
Lemma plain_run_calls ops : forall s,
  exists cs : list call,
    calls (run repr ops s) = calls s ++ cs
    /\ (length cs <= length (List.filter is_resolve ops))%nat
    /\ Forall (fun c => In (Resolve (call_name c)) ops) cs.
Proof.
  induction ops as [|o ops IH]; intros s.
  - exists []. simpl. rewrite app_nil_r. auto.
  - change (run repr (o :: ops) s) with (run repr ops (step repr s o)).
    destruct (IH (step repr s o)) as (cs2 & Hcalls & Hlen & Hnames).
    assert (Hlater : Forall (fun c => In (Resolve (call_name c)) (o :: ops)) cs2).
    { eapply Forall_impl; [|exact Hnames]. intros c Hc. now right. }
    destruct o as [p|p v].
    + simpl step in *.
      destruct (__getitem__ repr p s) as [r s'] eqn:Hrun.
      destruct (getitem_frame _ _ _ _ Hrun)
        as (_ & _ & _ & _ & (cs1 & Hcs1 & Hlen1 & Hnames1) & _).
      simpl in *. exists (cs1 ++ cs2). split_and!.
      * now rewrite Hcalls, Hcs1, app_assoc.
      * rewrite length_app. lia.
      * apply Forall_app. split; [|exact Hlater].
        eapply Forall_impl; [|exact Hnames1]. intros c ->. now left.
    + simpl step in *. rewrite setitem_run in *.
      exists cs2. split_and!; auto.
      destruct (assign (config s) [] (split p) v); exact Hcalls.
Qed.

Lemma sample_param_called key d s r s' :
  never_raises ->
  _sample_param repr key d s = (r, s') ->
  calls s' = calls s \/ exists v, r = Ok v.
Proof.
  intros Hnr. unfold _sample_param. unfold_M. intros Hrun.
  destruct (trial s) as [t|] eqn:Ht; [|inversion Hrun; now left].
  repeat first [ rewrite Ht in Hrun; simpl in Hrun | split_match ].
  all: inversion Hrun; subst; simpl.
  all: try (left; reflexivity).
  all: right.
  all: match goal with
       | Hs : suggest_categorical ?t ?k ?c = (?r, _) |- _ =>
           destruct (proj1 (Hnr t k) c) as (? & ? & Hv); rewrite Hv in Hs;
           injection Hs as <- _; eauto
       | Hs : suggest_float ?t ?k ?a = (?r, _) |- _ =>
           destruct (proj2 (Hnr t k) a) as (? & ? & Hv); rewrite Hv in Hs;
           injection Hs as <- _; eauto
       end.
Qed.

Lemma getitem_called s p r s' :
  never_raises ->
  __getitem__ repr p s = (r, s') ->
  calls s' = calls s \/ (log s !! p = None /\ exists v, r = Ok v).
Proof.
  intros Hnr. destruct (log s !! p) as [v|] eqn:Hlog.
  - rewrite (getitem_hit _ _ _ Hlog). intros [= <- <-]. now left.
  - rewrite (getitem_miss _ _ Hlog).
    destruct (descend (config s) [] (split p)) as [param|e];
      [|intros [= <- <-]; now left].
    destruct param; try (intros [= <- <-]; now left).
    destruct (_sample_param repr p d s) as [[v|e] s1] eqn:Hsp;
      destruct (sample_param_called _ _ _ _ _ Hnr Hsp) as [Hsame|(v' & Hv)];
      intros [= <- <-]; simpl; eauto.
Qed.

(** One operation, seen from a path [p], with a Trial that never raises:
    a cached [p] stays cached and no call is made under its name; a [p]
    that is not cached either sees no call under its name, or sees one
    and is cached by it. *)
Lemma step_sampling s p o :
  never_raises ->
  let s1 := step repr s o in
  (is_Some (log s !! p) ->
     is_Some (log s1 !! p) /\ count_named p (calls s1) = count_named p (calls s))
  /\ (count_named p (calls s1) = count_named p (calls s)
      \/ (count_named p (calls s1) = S (count_named p (calls s))
          /\ is_Some (log s1 !! p))).
Proof.
  intros Hnr s1. unfold s1. destruct o as [q|q v]; simpl.
  - destruct (__getitem__ repr q s) as [r s'] eqn:Hrun. simpl.
    destruct (getitem_frame _ _ _ _ Hrun)
      as (_ & _ & _ & _ & (cs & Hcs & Hlen & Hnames) & Hlog).
    assert (Hcached : is_Some (log s !! p) -> is_Some (log s' !! p)).
    { intros [w Hw]. exists w.
      change s' with (snd (r, s')). rewrite <- Hrun.
      apply (step_keeps_cached s p w (Resolve q)); auto. }
    destruct (getitem_called _ _ _ _ Hnr Hrun) as [Hsame|(Hmiss & v & ->)].
    { rewrite Hsame. split; [intros Hc; split; auto | now left]. }
    destruct (decide (q = p)) as [->|Hne].
    + split.
      * intros [w Hw]. congruence.
      * destruct cs as [|c [|c' cs]]; simpl in Hlen; try lia.
        { left. now rewrite Hcs, app_nil_r. }
        right. split; [|exists v; apply Hlog].
        rewrite Hcs, count_named_app. simpl.
        inversion Hnames as [|? ? Hc _]; subst. rewrite String.eqb_refl. lia.
    + assert (Hcount : count_named p (calls s') = count_named p (calls s)).
      { rewrite Hcs, count_named_app, (count_named_other p q cs); auto. }
      split; [intros Hc; split; auto | now left].
  - rewrite setitem_run.
    destruct (assign (config s) [] (split q) v); simpl.
    + split; [|now left]. intros [w Hw]. split; [|reflexivity].
      destruct (decide (q = p)) as [->|Hne].
      * exists v. apply lookup_insert_eq.
      * exists w. now rewrite lookup_insert_ne.
    + split; [intros Hc; split; auto | now left].
Qed.

(** X14. With a Trial that never raises, a path is sampled at most once in the
    lifetime of a resolver: over any run of Resolve and Overwrite
    operations at most one call is made under the name of a given path,
    and none when the path is cached at the start. *)
Theorem sampled_at_most_once ops : forall s p,
  never_raises ->
  (count_named p (calls (run repr ops s)) <= S (count_named p (calls s)))%nat
  /\ (is_Some (log s !! p) ->
      count_named p (calls (run repr ops s)) = count_named p (calls s)).
Proof.
  induction ops as [|o ops IH]; intros s p Hnr; [simpl; split; [lia|auto]|].
  change (run repr (o :: ops) s) with (run repr ops (step repr s o)).
  destruct (IH (step repr s o) p Hnr) as (Hle & Heq).
  destruct (step_sampling s p o Hnr) as (Hcached & Hstep).
  split.
  - destruct Hstep as [Hsame|(Hone & Hnow)].
    + lia.
    + rewrite (Heq Hnow). lia.
  - intros Hc. destruct (Hcached Hc) as (Hnow & Hsame).
    now rewrite (Heq Hnow).
Qed.

Lemma dict_set_set d k x y : dict_set (dict_set d k x) k y = dict_set d k y.
Proof.
  induction d as [|[k' v'] d IH]; simpl.
  - now rewrite String.eqb_refl.
  - destruct (String.eqb k' k) eqn:E; simpl; rewrite E; [reflexivity|].
    now rewrite IH.
Qed.

Lemma assign_again path : forall param seen v1 v2 param1 param2,
  assign param seen path v1 = Ok param1 ->
  assign param seen path v2 = Ok param2 ->
  assign param1 seen path v2 = Ok param2.
Proof.
  induction path as [|k rest IH]; intros param seen v1 v2 param1 param2 H1 H2;
    [discriminate|].
  destruct rest as [|k2 rest].
  - simpl in *. unfold setitem in *.
    destruct param; try discriminate.
    destruct (storable v1); [|discriminate].
    destruct (storable v2); [|discriminate].
    injection H1 as <-. injection H2 as <-. now rewrite dict_set_set.
  - destruct (assign_head _ _ _ _ _ _ H1) as (d & x1 & -> & -> & Hrest1).
    destruct Hrest1 as (child & Hchild & Hrec1); [discriminate|].
    rewrite assign_cons in H2. simpl item in H2. rewrite Hchild in H2.
    destruct (assign child (seen ++ [KStr k]) (k2 :: rest) v2) as [x2|e] eqn:Hrec2;
      [|discriminate].
    injection H2 as <-.
    rewrite assign_cons. simpl item. rewrite dict_lookup_set_eq.
    rewrite (IH _ _ _ _ _ _ Hrec1 Hrec2). now rewrite dict_set_set.
Qed.

(** X15. The last Overwrite of a path wins and the one before it leaves no
    trace: overwriting [p] with [v1] and then with [v2] gives the very
    state that overwriting it with [v2] alone gives. *)
Theorem overwrite_last_wins s p v1 v2 s1 s2 :
  __setitem__ p v1 s = (Ok tt, s1) ->
  __setitem__ p v2 s = (Ok tt, s2) ->
  __setitem__ p v2 s1 = (Ok tt, s2).
Proof.
  intros H1 H2. rewrite setitem_run in H1, H2. rewrite setitem_run.
  destruct (assign (config s) [] (split p) v1) as [cfg1|e] eqn:Ha1; [|discriminate].
  destruct (assign (config s) [] (split p) v2) as [cfg2|e] eqn:Ha2; [|discriminate].
  injection H1 as <-. injection H2 as <-. simpl.
  rewrite (assign_again _ _ _ _ _ _ _ Ha1 Ha2).
  unfold set_log, set_config. simpl. now rewrite insert_insert_eq.
Qed.

(** ** Path syntax *)

Lemma split_on_no_slash (i : string) :
  Forall (fun seg => has_slash seg = false) (split_on "/"%char i).
Proof.
  induction i as [|c i IH]; simpl; [repeat constructor|].
  destruct (Ascii.eqb c "/"%char) eqn:Hc; [constructor; auto|].
  destruct (split_on "/"%char i) as [|w ws]; [repeat constructor; simpl; now rewrite Hc|].
  inversion IH as [|? ? Hw Hws]; subst.
  constructor; [simpl; now rewrite Hc | exact Hws].
Qed.

(** X16. No segment of a path contains the separator, so a key of the document
    that contains ["/"] is out of reach: wherever Resolve or Overwrite
    follows a path, the keys it asks for are free of it. *)
Theorem segments_have_no_slash p (k : string) :
  In k (split p) -> has_slash k = false.
Proof.
  intros Hin. pose proof (split_on_no_slash p) as Hall.
  rewrite List.Forall_forall in Hall. now apply Hall.
Qed.

End Properties.

(** ** The properties on the sample document *)

(** C2. The claim fails on the code: a mapping without [sample_type],
    looked up while a Trial is active, does not make Resolve raise.  The
    [NotImplementedError] is built and returned, not raised, so Resolve
    returns the exception object as the value of the path and caches it. *)
Theorem untagged_mapping_returns_exception_object :
  trial searching = Some 0%nat
  /\ log searching !! "hp/optim" = None
  /\ descend (config searching) [] (split "hp/optim") = Ok (VDict optim_node)
  /\ get optim_node "sample_type" = VNone
  /\ __getitem__ stub_repr "hp/optim" searching =
       (Ok (VExc (NotImplementedError dict_msg)),
        set_log (<["hp/optim" := VExc (NotImplementedError dict_msg)]> (log searching))
          searching).
Proof. split_and!; vm_compute; reflexivity. Qed.


(** [hp/beta] pinned to [7], then read after other operations. *)
Lemma overwrite_precedence_witness :
  let ops := [Resolve "hp/T"; Overwrite "hp/epochs" (VInt 3); Resolve "hp/beta";
              Overwrite "hp/epochs/x" VNone] in
  descend (config searching) [] (removelast (split "hp/beta")) = Ok (VDict hp_node)
  /\ storable (VInt 7) = true
  /\ forallb (fun o => negb (overwrites "hp/beta" o)) ops = true
  /\ exists s1,
       __setitem__ "hp/beta" (VInt 7) searching = (Ok tt, s1)
       /\ __getitem__ stub_repr "hp/beta" (run stub_repr ops s1)
          = (Ok (VInt 7), run stub_repr ops s1).
Proof.
  intros ops.
  assert (H1 : descend (config searching) [] (removelast (split "hp/beta"))
               = Ok (VDict hp_node)) by (vm_compute; reflexivity).
  assert (H2 : storable (VInt 7) = true) by reflexivity.
  assert (H3 : forallb (fun o => negb (overwrites "hp/beta" o)) ops = true)
    by (vm_compute; reflexivity).
  destruct (overwrite_precedence stub_repr searching "hp/beta" (VInt 7))
    as (Hreturns & Hafter).
  destruct (Hreturns hp_node H1 H2) as (s1 & Hset).
  split_and!; auto. exists s1. split; [exact Hset|]. now apply Hafter.
Defined.

(** [hp/T] has the bounds [(1, 3)]: the stub is offered [1; 2; 3]. *)
Lemma range_expansion_witness :
  trial searching = Some 0%nat
  /\ log searching !! "hp/T" = None
  /\ descend (config searching) [] (split "hp/T") = Ok (VDict T_node)
  /\ get T_node "sample_type" = VStr "range"
  /\ dict_lookup T_node "sample_space" = Some (VList [VInt 1; VInt 3])
  /\ range 1 (3 + 1) = [1; 2; 3]
  /\ __getitem__ stub_repr "hp/T" searching =
       (Ok (VInt 1),
        mkRunInfo (Some "study") sample_config (<["hp/T" := VInt 1]> ∅) (Some 1%nat)
          [SuggestCategorical "hp/T" (VList [VInt 1; VInt 2; VInt 3])]).
Proof.
  assert (H1 : trial searching = Some 0%nat) by reflexivity.
  assert (H2 : log searching !! "hp/T" = None) by (vm_compute; reflexivity).
  assert (H3 : descend (config searching) [] (split "hp/T") = Ok (VDict T_node))
    by (vm_compute; reflexivity).
  assert (H4 : get T_node "sample_type" = VStr "range") by reflexivity.
  assert (H5 : dict_lookup T_node "sample_space" = Some (VList [VInt 1; VInt 3]))
    by reflexivity.
  pose proof (range_expansion stub_repr searching "hp/T" T_node 1 3 0%nat
                H1 H2 H3 H4 H5) as Hthm.
  simpl in Hthm. destruct Hthm as (_ & _ & _ & Hrun).
  split_and!; auto.
Defined.

(** Resolve leaves the sample document alone, Overwrite writes it. *)
Lemma resolve_preserves_config_witness :
  let s1 := snd (__setitem__ "hp/beta" (VInt 7) searching) in
  __setitem__ "hp/beta" (VInt 7) searching = (Ok tt, s1)
  /\ descend (config s1) [] (split "hp/beta") = Ok (VInt 7)
  /\ config (snd (__getitem__ stub_repr "hp/beta" searching)) = config searching.
Proof.
  intros s1.
  assert (H1 : __setitem__ "hp/beta" (VInt 7) searching = (Ok tt, s1))
    by (vm_compute; reflexivity).
  destruct (resolve_preserves_config stub_repr searching "hp/beta")
    as (Hcfg & _ & _ & _ & Hwrite).
  split_and!; [exact H1 | exact (Hwrite (VInt 7) s1 H1) | exact Hcfg].
Defined.

(** ** Further properties on the sample documents *)

(** [hp/lr] is tagged [float] and has no [sample_space]. *)
Lemma missing_sample_space_witness :
  trial probing = Some 0%nat
  /\ log probing !! "hp/lr" = None
  /\ descend (config probing) [] (split "hp/lr") = Ok (VDict lr_node)
  /\ get lr_node "sample_type" = VStr "float"
  /\ dict_lookup lr_node "sample_space" = None
  /\ __getitem__ stub_repr "hp/lr" probing =
       (Err (ConfigKeyError (KStr "sample_space")
               [KStr "hp"; KStr "lr"; KStr "sample_space"]), probing).
Proof.
  assert (H1 : trial probing = Some 0%nat) by reflexivity.
  assert (H2 : log probing !! "hp/lr" = None) by (vm_compute; reflexivity).
  assert (H3 : descend (config probing) [] (split "hp/lr") = Ok (VDict lr_node))
    by (vm_compute; reflexivity).
  assert (H4 : get lr_node "sample_type" = VStr "float") by reflexivity.
  assert (H5 : dict_lookup lr_node "sample_space" = None) by reflexivity.
  assert (H6 : In "float" ["single_value"; "categorical"; "float"; "range"])
    by (simpl; auto).
  split_and!; [exact H1 | exact H2 | exact H3 | exact H4 | exact H5 |].
  exact (missing_sample_space stub_repr probing "hp/lr" lr_node 0%nat "float"
           H1 H2 H3 H4 H6 H5).
Defined.

(** [hp/width] has the bounds [True] and [2] and a third element: the stub
    is offered [1; 2].  [hp/k] has the bounds [5] and [1]: the stub is
    offered nothing, and raises. *)
Lemma range_bounds_witness :
  log probing !! "hp/width" = None
  /\ descend (config probing) [] (split "hp/width") = Ok (VDict width_node)
  /\ dict_lookup width_node "sample_space" = Some (VList [VBool true; VInt 2; VInt 9])
  /\ as_int (VBool true) = Ok 1
  /\ __getitem__ stub_repr "hp/width" probing =
       (Ok (VInt 1),
        mkRunInfo None odd_config (<["hp/width" := VInt 1]> ∅) (Some 1%nat)
          [SuggestCategorical "hp/width" (VList [VInt 1; VInt 2])])
  /\ __getitem__ stub_repr "hp/k" probing =
       (Err (TrialError "no choices"),
        mkRunInfo None odd_config ∅ (Some 1%nat)
          [SuggestCategorical "hp/k" (VList [])]).
Proof.
  assert (H1 : trial probing = Some 0%nat) by reflexivity.
  assert (H2 : log probing !! "hp/width" = None) by (vm_compute; reflexivity).
  assert (H3 : descend (config probing) [] (split "hp/width") = Ok (VDict width_node))
    by (vm_compute; reflexivity).
  assert (H4 : get width_node "sample_type" = VStr "range") by reflexivity.
  assert (H5 : dict_lookup width_node "sample_space"
               = Some (VList [VBool true; VInt 2; VInt 9])) by reflexivity.
  assert (K2 : log probing !! "hp/k" = None) by (vm_compute; reflexivity).
  assert (K3 : descend (config probing) [] (split "hp/k") = Ok (VDict k_node))
    by (vm_compute; reflexivity).
  assert (K4 : get k_node "sample_type" = VStr "range") by reflexivity.
  assert (K5 : dict_lookup k_node "sample_space" = Some (VList [VInt 5; VInt 1]))
    by reflexivity.
  pose proof (range_bounds stub_repr probing "hp/width" width_node 0%nat
                (VBool true) (VInt 2) [VInt 9] 1 2 H1 H2 H3 H4 H5 eq_refl eq_refl)
    as Hwidth.
  pose proof (range_bounds stub_repr probing "hp/k" k_node 0%nat
                (VInt 5) (VInt 1) [] 5 1 H1 K2 K3 K4 K5 eq_refl eq_refl) as Hk.
  simpl in Hwidth, Hk.
  split_and!;
    [exact H2 | exact H3 | exact H5 | reflexivity
     | exact (proj2 Hwidth) | exact (proj2 Hk)].
Defined.

(** A resolver seeded with a value for [hp/beta]. *)
Lemma seeded_log_precedence_witness :
  let lg : gmap string value := <["hp/beta" := VInt 9]> ∅ in
  let ops := [Resolve "hp/T"; Overwrite "hp/epochs" (VInt 3)] in
  let s := run stub_repr ops (__init__ None sample_config (Some lg) (Some 0%nat)) in
  lg !! "hp/beta" = Some (VInt 9)
  /\ forallb (fun o => negb (overwrites "hp/beta" o)) ops = true
  /\ __getitem__ stub_repr "hp/beta" s = (Ok (VInt 9), s).
Proof.
  intros lg ops s.
  assert (H1 : lg !! "hp/beta" = Some (VInt 9)) by (vm_compute; reflexivity).
  assert (H2 : forallb (fun o => negb (overwrites "hp/beta" o)) ops = true)
    by reflexivity.
  split_and!; [exact H1 | exact H2 |].
  exact (seeded_log_precedence stub_repr None sample_config lg (Some 0%nat)
           "hp/beta" (VInt 9) ops H1 H2).
Defined.


(** Overwriting [hp/beta] leaves [hp/epochs] alone. *)
Lemma overwrite_frame_witness :
  let s1 := snd (__setitem__ "hp/beta" (VInt 7) searching) in
  __setitem__ "hp/beta" (VInt 7) searching = (Ok tt, s1)
  /\ descend (config s1) [] (split "hp/epochs")
     = descend (config searching) [] (split "hp/epochs").
Proof.
  intros s1.
  assert (H1 : __setitem__ "hp/beta" (VInt 7) searching = (Ok tt, s1))
    by (vm_compute; reflexivity).
  split; [exact H1|].
  apply (overwrite_frame searching "hp/beta" "hp/epochs" (VInt 7) s1
           ["hp"] "beta" "epochs" [] []);
    [vm_compute; reflexivity | vm_compute; reflexivity | discriminate | exact H1].
Defined.

Lemma lenient_never_raises : @never_raises Z lenient_trial.
Proof.
  intros t name. split.
  - intros choices. destruct choices; simpl; eauto. destruct l; eauto.
  - intros args. destruct args; simpl; eauto.
Defined.

(** [hp/T] resolved over and over, with other operations in between. *)
Lemma sampled_at_most_once_witness :
  let ops := [Resolve "hp/T"; Resolve "hp/beta"; Overwrite "hp/epochs" (VInt 3);
              Resolve "hp/T"; Resolve "hp/T"] in
  @never_raises Z lenient_trial
  /\ (count_named "hp/T" (calls (run stub_repr ops tuning)) <= 1)%nat.
Proof.
  intros ops. split; [exact lenient_never_raises|].
  exact (proj1 (sampled_at_most_once stub_repr ops tuning "hp/T" lenient_never_raises)).
Defined.

(** The segments of [hp/optim/w/lr]. *)
Lemma segments_have_no_slash_witness :
  In "optim" (split "hp/optim/w/lr") /\ has_slash "optim" = false.
Proof.
  assert (H1 : In "optim" (split "hp/optim/w/lr")) by (vm_compute; auto).
  split; [exact H1|].
  exact (segments_have_no_slash "hp/optim/w/lr" "optim" H1).
Defined.

(** [hp/beta] overwritten with [7], then with [8]. *)
Lemma overwrite_last_wins_witness :
  let s1 := snd (__setitem__ "hp/beta" (VInt 7) searching) in
  let s2 := snd (__setitem__ "hp/beta" (VInt 8) searching) in
  __setitem__ "hp/beta" (VInt 7) searching = (Ok tt, s1)
  /\ __setitem__ "hp/beta" (VInt 8) searching = (Ok tt, s2)
  /\ __setitem__ "hp/beta" (VInt 8) s1 = (Ok tt, s2).
Proof.
  intros s1 s2.
  assert (H1 : __setitem__ "hp/beta" (VInt 7) searching = (Ok tt, s1))
    by (vm_compute; reflexivity).
  assert (H2 : __setitem__ "hp/beta" (VInt 8) searching = (Ok tt, s2))
    by (vm_compute; reflexivity).
  split_and!; [exact H1 | exact H2 |].
  exact (overwrite_last_wins searching "hp/beta" (VInt 7) (VInt 8) s1 s2 H1 H2).
Defined.

(** * The resolver with references and missing values *)

Section LazyProperties.

Context {T : Type} `{Trial T}.
Variable repr : value -> string.

Implicit Types (s : RunInfo T) (p : string) (v : value).
Implicit Types (rec : string -> L (T := T) value) (X : list string).

Ltac unfold_L :=
  unfold bindL, getsL, retL, raiseL, beyondL, liftL, modifyL, of_M in *;
  simpl in *.

(** ** Reading composes *)

Lemma kept_refl X s : kept X s s.
Proof. split; auto. Qed.

Lemma settled_refl {A} s (o : outcome A) : settled s s o.
Proof. intros q Hq. lia. Qed.

Lemma settled_stopped {A} s s' (o : outcome A) : is_val o = false -> settled s s' o.
Proof. intros Ho q _. now right. Qed.

Lemma kept_trans X s s1 s2 :
  kept X s s1 ->
  (forall q, count_named q (calls s1) = S (count_named q (calls s)) ->
             is_Some (log s1 !! q)) ->
  kept X s1 s2 -> kept X s s2.
Proof.
  intros [C1 E1 P1 K1 N1] G [C2 E2 P2 K2 N2]. split.
  - congruence.
  - eauto.
  - intros q Hin Hn. destruct (P1 q Hin Hn) as [Hn1 Hc1].
    destruct (P2 q Hin Hn1) as [Hn2 Hc2]. split; congruence.
  - intros q [w Hw]. rewrite K2 by (exists w; eauto). apply K1. now exists w.
  - intros q. specialize (N1 q). specialize (N2 q).
    destruct (Nat.eq_dec (count_named q (calls s1)) (S (count_named q (calls s))))
      as [Hg|Hg]; [|lia].
    rewrite (K2 q (G q Hg)). lia.
Qed.

Lemma settled_trans {A} X s s1 s2 (o : outcome A) :
  kept X s s1 ->
  (forall q, count_named q (calls s1) = S (count_named q (calls s)) ->
             is_Some (log s1 !! q)) ->
  kept X s1 s2 -> settled s1 s2 o -> settled s s2 o.
Proof.
  intros K1 G K2 S2 q Hq.
  pose proof (kept_count _ _ _ K1 q) as N1.
  destruct (Nat.eq_dec (count_named q (calls s1)) (S (count_named q (calls s))))
    as [Hg|Hg].
  - left. destruct (G q Hg) as [w Hw]. exists w. eapply kept_entries; eauto.
  - pose proof (kept_count _ _ _ K2 q) as N2. apply S2. lia.
Qed.

Lemma settled_val {A} s s' (a : A) :
  settled s s' (Val a) ->
  forall q, count_named q (calls s') = S (count_named q (calls s)) ->
            is_Some (log s' !! q).
Proof. intros S1 q Hq. destruct (S1 q Hq); [assumption|discriminate]. Qed.

Lemma reads_bind {A B} X (m : L (T := T) A) (f : A -> L (T := T) B) :
  reads X m -> (forall a, reads X (f a)) -> reads X (bindL m f).
Proof.
  intros Hm Hf s o s' Hrun. unfold bindL in Hrun.
  destruct (m s) as [o1 s1] eqn:E1. destruct (Hm _ _ _ E1) as [K1 S1].
  destruct o1 as [a|e|l].
  - destruct (Hf _ _ _ _ Hrun) as [K2 S2].
    pose proof (settled_val _ _ _ S1) as G.
    split; [eapply kept_trans|eapply settled_trans]; eauto.
  - injection Hrun as <- <-. split; [assumption|now apply settled_stopped].
  - injection Hrun as <- <-. split; [assumption|now apply settled_stopped].
Qed.

Lemma asked_refl key s : asked key s s.
Proof. unfold asked. auto. Qed.

Lemma asks_reads {A} key X (m : L (T := T) A) : reads X m -> asks key X m.
Proof.
  intros Hm s o s' Hrun. destruct (Hm _ _ _ Hrun) as [K1 S1].
  exists s'. split_and!; auto using asked_refl.
Qed.

Lemma asks_bind {A B} key X (m : L (T := T) A) (f : A -> L (T := T) B) :
  reads X m -> (forall a, asks key X (f a)) -> asks key X (bindL m f).
Proof.
  intros Hm Hf s o s' Hrun. unfold bindL in Hrun.
  destruct (m s) as [o1 s1] eqn:E1. destruct (Hm _ _ _ E1) as [K1 S1].
  destruct o1 as [a|e|l].
  - destruct (Hf _ _ _ _ Hrun) as (s2 & K2 & S2 & Hown).
    pose proof (settled_val _ _ _ S1) as G.
    exists s2. split_and!; [eapply kept_trans|eapply settled_trans|]; eauto.
  - injection Hrun as <- <-. exists s1.
    split_and!; [assumption|now apply settled_stopped|apply asked_refl].
  - injection Hrun as <- <-. exists s1.
    split_and!; [assumption|now apply settled_stopped|apply asked_refl].
Qed.

Lemma reads_pure {A} X (m : L (T := T) A) : (forall s, snd (m s) = s) -> reads X m.
Proof.
  intros Hm s o s' Hrun. specialize (Hm s). rewrite Hrun in Hm. simpl in Hm.
  subst s'. split; [apply kept_refl|apply settled_refl].
Qed.

Lemma reads_retL {A} X (a : A) : reads X (retL a : L (T := T) A).
Proof. now apply reads_pure. Qed.

Lemma reads_raiseL {A} X e : reads X (raiseL e : L (T := T) A).
Proof. now apply reads_pure. Qed.

Lemma reads_beyondL {A} X l : reads X (beyondL l : L (T := T) A).
Proof. now apply reads_pure. Qed.

Lemma reads_liftL {A} X (r : result A) : reads X (liftL r : L (T := T) A).
Proof. now apply reads_pure. Qed.

Lemma reads_getsL {A} X (f : RunInfo T -> A) : reads X (getsL f).
Proof. now apply reads_pure. Qed.

Lemma reads_to_trial X v : reads X (to_trial v : L (T := T) value).
Proof. unfold to_trial. destruct v; try destruct (plain _); now apply reads_pure. Qed.

Lemma reads_from_resolver X (m : L (T := T) value) : reads X m -> reads X (from_resolver m).
Proof.
  intros Hm s o s' Hrun. unfold from_resolver in Hrun.
  destruct (m s) as [o1 s1] eqn:E1. destruct (Hm _ _ _ E1) as [K1 S1].
  destruct o1 as [a|e|l]; [destruct (scalar a)|..]; injection Hrun as <- <-;
    (split; [assumption|]); first [assumption | now apply settled_stopped].
Qed.

Section Readers.

Variable rec : string -> L (T := T) value.
Variable X : list string.
Hypothesis reads_rec : forall j, reads X (rec j).

Lemma reads_read_node v : reads X (read_node rec v).
Proof.
  destruct v; try apply reads_retL. simpl.
  destruct (is_missing _); [apply reads_raiseL|].
  destruct (has_interp _); [|apply reads_retL].
  destruct (hp_ref _); [|apply reads_beyondL].
  apply reads_from_resolver, reads_rec.
Qed.

Lemma reads_lazy_item seen param k : reads X (lazy_item rec seen param k).
Proof.
  unfold lazy_item. destruct (item seen param k);
    [apply reads_read_node|apply reads_raiseL].
Qed.

Lemma reads_lazy_item_int seen param n : reads X (lazy_item_int rec seen param n).
Proof.
  unfold lazy_item_int. destruct (item_int seen param n);
    [apply reads_read_node|apply reads_raiseL].
Qed.

Lemma reads_lazy_get d k : reads X (lazy_get rec d k).
Proof.
  unfold lazy_get. destruct (dict_lookup d k) as [v|]; [|apply reads_retL].
  destruct v; try apply reads_retL.
  destruct (is_missing _); [apply reads_retL|apply reads_read_node].
Qed.

Lemma reads_mapL {A B} (f : A -> L (T := T) B) l :
  (forall a, reads X (f a)) -> reads X (mapL f l).
Proof.
  intros Hf. induction l as [|a l IH]; simpl; [apply reads_retL|].
  apply reads_bind; [apply Hf|intros b].
  apply reads_bind; [apply IH|intros bs]. apply reads_retL.
Qed.

Lemma reads_lazy_unpack param : reads X (lazy_unpack rec param).
Proof.
  destruct param; try apply reads_liftL.
  simpl. apply reads_mapL, reads_read_node.
Qed.

Lemma reads_lazy_descend path : forall param seen,
  reads X (lazy_descend rec param seen path).
Proof.
  induction path as [|k rest IH]; intros param seen; simpl; [apply reads_retL|].
  apply reads_bind; [apply reads_lazy_item|intros child; apply IH].
Qed.

Lemma asks_call_categorical key c : asks key X (of_M (call_categorical key c)).
Proof.
  intros s o s' Hrun. exists s.
  split_and!; [apply kept_refl|apply settled_refl|].
  unfold of_M, call_categorical in Hrun.
  destruct (trial s) as [t|]; simpl in Hrun.
  - destruct (suggest_categorical t key c) as [r t']. simpl in Hrun.
    injection Hrun as <- <-. unfold asked. simpl. split_and!; eauto.
  - injection Hrun as <- <-. apply asked_refl.
Qed.

Lemma asks_call_float key args : asks key X (of_M (call_float key args)).
Proof.
  intros s o s' Hrun. exists s.
  split_and!; [apply kept_refl|apply settled_refl|].
  unfold of_M, call_float in Hrun.
  destruct (trial s) as [t|]; simpl in Hrun.
  - destruct (suggest_float t key args) as [r t']. simpl in Hrun.
    injection Hrun as <- <-. unfold asked. simpl. split_and!; eauto.
  - injection Hrun as <- <-. apply asked_refl.
Qed.

Lemma asks_lazy_sample_param key d : asks key X (lazy_sample_param repr rec key d).
Proof.
  unfold lazy_sample_param.
  apply asks_bind; [apply reads_getsL|intros tr].
  destruct tr as [t|]; [|apply asks_reads, reads_lazy_get].
  apply asks_bind; [apply reads_lazy_get|intros sample_type].
  destruct (negb (is_None sample_type)); [|apply asks_reads, reads_retL].
  destruct (is_str sample_type "single_value");
    [apply asks_reads, reads_lazy_item|].
  destruct (is_str sample_type "categorical").
  { apply asks_bind; [apply reads_lazy_item|intros space].
    apply asks_bind; [apply reads_to_trial|intros space'].
    apply asks_call_categorical. }
  destruct (is_str sample_type "float").
  { apply asks_bind; [apply reads_lazy_item|intros space].
    apply asks_bind; [apply reads_lazy_unpack|intros args].
    apply asks_bind; [apply reads_mapL, reads_to_trial|intros args'].
    apply asks_call_float. }
  destruct (is_str sample_type "range"); [|apply asks_reads, reads_raiseL].
  apply asks_bind; [apply reads_lazy_item|intros space].
  apply asks_bind; [apply reads_lazy_item_int|intros lo].
  apply asks_bind; [apply reads_lazy_item|intros space'].
  apply asks_bind; [apply reads_lazy_item_int|intros hi].
  apply asks_bind; [apply reads_liftL|intros hi'].
  apply asks_bind; [apply reads_liftL|intros lo'].
  apply asks_call_categorical.
Qed.

End Readers.

(** ** [__getitem__] with the resolver in place *)

Lemma lazy_getitem_hit n X p s v :
  log s !! p = Some v -> lazy_getitem repr n X p s = (Val v, s).
Proof. intros Hhit. destruct n; simpl; now rewrite Hhit. Qed.

Lemma getitem_body_miss rec p s :
  log s !! p = None ->
  getitem_body repr rec p s =
    match lazy_descend rec (config s) [] (split p) s with
    | (Val param, s1) =>
        match (match param with
               | VDict d => lazy_sample_param repr rec p d
               | _ => retL param
               end) s1 with
        | (Val v, s2) => (Val v, set_log (<[p := v]> (log s2)) s2)
        | (Raise e, s2) => (Raise e, s2)
        | (Beyond l, s2) => (Beyond l, s2)
        end
    | (Raise e, s1) => (Raise e, s1)
    | (Beyond l, s1) => (Beyond l, s1)
    end.
Proof.
  intros Hmiss. unfold getitem_body. unfold_L. rewrite Hmiss.
  destruct (lazy_descend rec (config s) [] (split p) s) as [[param|e|l] s1];
    reflexivity.
Qed.

Lemma lazy_getitem_miss n p s :
  log s !! p = None ->
  lazy_getitem repr (S n) [] p s
  = getitem_body repr (lazy_getitem repr n [p]) p s.
Proof. intros Hmiss. simpl. now rewrite Hmiss. Qed.

Lemma asked_count key s1 s2 :
  asked key s1 s2 ->
  (forall q, q <> key -> count_named q (calls s2) = count_named q (calls s1))
  /\ (count_named key (calls s1) <= count_named key (calls s2)
      <= S (count_named key (calls s1)))%nat.
Proof.
  intros (_ & _ & [->|(c & -> & Hc)]); [split; [reflexivity|lia]|].
  split.
  - intros q Hq. rewrite count_named_app. simpl. rewrite Hc.
    destruct (String.eqb_spec key q); [congruence|lia].
  - rewrite count_named_app. simpl. rewrite Hc, String.eqb_refl. lia.
Qed.

(** The resolution of a path that is not cached, once its nodes are read
    and the Trial has been asked: the value is stored when there is one. *)
Lemma kept_finish X p s s1 s2 s' (o : outcome value) :
  ~ In p X -> log s !! p = None ->
  kept (p :: X) s s1 -> settled s s1 o -> asked p s1 s2 ->
  config s' = config s2 -> calls s' = calls s2 ->
  log s' = match o with Val v => <[p := v]> (log s2) | _ => log s2 end ->
  kept X s s' /\ settled s s' o
  /\ (forall v, o = Val v -> log s' !! p = Some v)
  /\ (is_val o = false -> log s' !! p = None).
Proof.
  intros Hnin Hmiss K S1 Hown Hcfg Hcalls Hlog.
  destruct (asked_count _ _ _ Hown) as [Hother Hself].
  destruct Hown as (Hc2 & Hl2 & _).
  destruct (kept_pending _ _ _ K p (in_eq _ _) Hmiss) as [Hmiss1 Hcount1].
  assert (Hlook : forall q, q <> p -> log s' !! q = log s1 !! q).
  { intros q Hq. rewrite Hlog, <- Hl2.
    destruct o; try reflexivity. now rewrite lookup_insert_ne. }
  assert (Hne : forall q, is_Some (log s !! q) -> q <> p).
  { intros q [w Hw] ->. congruence. }
  split_and!.
  - split.
    + rewrite Hcfg, Hc2. apply (kept_config _ _ _ K).
    + intros q w Hw. rewrite Hlook by (apply Hne; eauto).
      eapply kept_entries; eauto.
    + intros q Hin Hq. assert (q <> p) as Hqp by (intros ->; auto).
      destruct (kept_pending _ _ _ K q (in_cons _ _ _ Hin) Hq) as [Hq1 Hc1].
      rewrite Hlook, Hcalls, Hother by assumption. auto.
    + intros q Hq. rewrite Hcalls, Hother by auto.
      apply (kept_cached _ _ _ K q Hq).
    + intros q. rewrite Hcalls. destruct (String.eqb_spec q p) as [->|Hqp].
      * lia.
      * rewrite Hother by assumption. apply (kept_count _ _ _ K).
  - intros q Hq. rewrite Hcalls in Hq.
    destruct (String.eqb_spec q p) as [->|Hqp].
    + destruct o; [left|now right|now right].
      rewrite Hlog, lookup_insert_eq. eauto.
    + rewrite Hother in Hq by assumption.
      destruct (S1 q Hq) as [Hs|Hs]; [left|now right].
      now rewrite Hlook.
  - intros v ->. now rewrite Hlog, lookup_insert_eq.
  - intros Ho. rewrite Hlog. destruct o; [discriminate|now rewrite Hl2..].
Qed.

Lemma getitem_body_spec rec X p s o s' :
  (forall j, reads (p :: X) (rec j)) ->
  ~ In p X -> log s !! p = None ->
  getitem_body repr rec p s = (o, s') ->
  kept X s s' /\ settled s s' o
  /\ (forall v, o = Val v -> log s' !! p = Some v)
  /\ (is_val o = false -> log s' !! p = None).
Proof.
  intros Hrec Hnin Hmiss Hrun. rewrite getitem_body_miss in Hrun by assumption.
  destruct (lazy_descend rec (config s) [] (split p) s) as [o1 s1] eqn:E1.
  destruct (reads_lazy_descend rec (p :: X) Hrec _ _ _ _ _ _ E1) as [K1 S1].
  destruct o1 as [param|e|l].
  - set (m2 := match param with
               | VDict d => lazy_sample_param repr rec p d
               | _ => retL param
               end) in Hrun.
    assert (Hm2 : asks p (p :: X) m2).
    { subst m2. destruct param; try apply asks_reads, reads_retL.
      now apply asks_lazy_sample_param. }
    destruct (m2 s1) as [o2 s2] eqn:E2.
    destruct (Hm2 _ _ _ E2) as (s1' & K2 & S2 & Hown).
    pose proof (settled_val _ _ _ S1) as G.
    assert (K : kept (p :: X) s s1') by exact (kept_trans _ _ _ _ K1 G K2).
    assert (Sc : settled s s1' o2) by exact (settled_trans _ _ _ _ _ K1 G K2 S2).
    destruct o2 as [v|e|l]; injection Hrun as <- <-;
      eapply kept_finish; eauto.
  - injection Hrun as <- <-.
    eapply kept_finish; eauto using asked_refl, settled_stopped.
  - injection Hrun as <- <-.
    eapply kept_finish; eauto using asked_refl, settled_stopped.
Qed.

Lemma existsb_eqb_false p X : existsb (String.eqb p) X = false -> ~ In p X.
Proof.
  intros Hex Hin. assert (existsb (String.eqb p) X = true); [|congruence].
  apply existsb_exists. exists p. split; [assumption|apply String.eqb_refl].
Qed.

(** A resolution only reads nodes, whatever the nesting. *)
Lemma lazy_getitem_reads n : forall X p, reads X (lazy_getitem repr n X p).
Proof.
  induction n as [|n IH]; intros X p s o s' Hrun; simpl in Hrun;
    destruct (log s !! p) as [w|] eqn:Hl;
    try (injection Hrun as <- <-; split; [apply kept_refl|apply settled_refl]).
  destruct (existsb (String.eqb p) X) eqn:Hex.
  - injection Hrun as <- <-; split; [apply kept_refl|apply settled_refl].
  - apply existsb_eqb_false in Hex.
    destruct (getitem_body_spec _ X p s o s' (fun j => IH (p :: X) j) Hex Hl Hrun)
      as (K & S1 & _). now split.
Qed.

(** What a resolution leaves behind. *)
Lemma lazy_getitem_spec n X p s o s' :
  lazy_getitem repr n X p s = (o, s') ->
  kept X s s' /\ settled s s' o
  /\ (forall v, o = Val v -> log s' !! p = Some v)
  /\ (is_val o = false -> log s' !! p = None).
Proof.
  intros Hrun. destruct (log s !! p) as [w|] eqn:Hl.
  - rewrite (lazy_getitem_hit _ _ _ _ _ Hl) in Hrun. injection Hrun as <- <-.
    split_and!; [apply kept_refl|apply settled_refl|congruence|discriminate].
  - destruct n as [|n]; simpl in Hrun; rewrite Hl in Hrun.
    + injection Hrun as <- <-.
      split_and!; [apply kept_refl|apply settled_refl|discriminate|auto].
    + destruct (existsb (String.eqb p) X) eqn:Hex.
      * injection Hrun as <- <-.
        split_and!; [apply kept_refl|apply settled_refl|discriminate|auto].
      * apply existsb_eqb_false in Hex.
        eapply getitem_body_spec; eauto.
        intros j. apply lazy_getitem_reads.
Qed.

(** ** Documents without references *)

Lemma literal_char c : literal_str (String c EmptyString) = true.
Proof.
  unfold literal_str, is_missing. simpl.
  now destruct (Ascii.eqb c "?"%char).
Qed.

Lemma plain_literal v : plain v = true -> literal v = true.
Proof. now destruct v. Qed.

Lemma plain_lookup d k v :
  plain (VDict d) = true -> dict_lookup d k = Some v -> plain v = true.
Proof.
  simpl. induction d as [|[k' v'] d IH]; simpl; [discriminate|].
  intros [Hv Hd]%andb_prop. destruct (String.eqb k' k); [|now apply IH].
  now intros [= <-].
Qed.

Lemma plain_nth l n v :
  plain (VList l) = true -> nth_error l n = Some v -> plain v = true.
Proof.
  simpl. intros Hl Hn. rewrite forallb_forall in Hl.
  apply Hl. eapply nth_error_In; eauto.
Qed.

Lemma item_plain seen param k v :
  plain param = true -> item seen param k = Ok v -> plain v = true.
Proof.
  destruct param as [| | | | |l|d|]; try discriminate. simpl.
  destruct (dict_lookup d k) eqn:Hk; [|discriminate].
  intros Hp [= <-]. eapply plain_lookup; eauto.
Qed.

Lemma item_int_plain seen param n v :
  plain param = true -> item_int seen param n = Ok v -> plain v = true.
Proof.
  destruct param as [| | | |str|l|d|]; try discriminate; simpl.
  - destruct (String.get n str); [|discriminate].
    intros _ [= <-]. apply literal_char.
  - destruct (nth_error l n) eqn:Hn; [|discriminate].
    intros Hp [= <-]. eapply plain_nth; eauto.
Qed.

Lemma descend_plain path : forall param seen v,
  plain param = true -> descend param seen path = Ok v -> plain v = true.
Proof.
  induction path as [|k rest IH]; intros param seen v Hp Hd; simpl in Hd.
  - now injection Hd as <-.
  - destruct (item seen param k) as [child|e] eqn:Hitem; [|discriminate].
    eapply IH; [|exact Hd]. eapply item_plain; eauto.
Qed.

Lemma dict_set_plain d k v :
  plain (VDict d) = true -> plain v = true -> plain (VDict (dict_set d k v)) = true.
Proof.
  simpl. induction d as [|[k' v'] d IH]; simpl; intros Hd Hv.
  - now rewrite Hv.
  - apply andb_prop in Hd as [Hv' Hd].
    destruct (String.eqb k' k); simpl; [now rewrite Hv|].
    now rewrite Hv', IH.
Qed.

Lemma assign_plain path : forall param seen v param',
  plain param = true -> plain v = true ->
  assign param seen path v = Ok param' -> plain param' = true.
Proof.
  induction path as [|k rest IH]; intros param seen v param' Hp Hv Ha;
    [discriminate|].
  destruct rest as [|k2 rest].
  - simpl in Ha. unfold setitem in Ha. destruct param; try discriminate.
    destruct (storable v); [|discriminate]. injection Ha as <-.
    now apply dict_set_plain.
  - rewrite assign_cons in Ha.
    destruct (item seen param k) as [child|e] eqn:Hitem; [|discriminate].
    destruct (assign child (seen ++ [KStr k]) (k2 :: rest) v) as [child'|e] eqn:Hrec;
      destruct param; try discriminate.
    injection Ha as <-. apply dict_set_plain; [assumption|].
    apply (IH child (seen ++ [KStr k]) v child'); [|assumption..].
    exact (item_plain _ _ _ _ Hp Hitem).
Qed.

(** ** Reading a node that holds no reference *)

Lemma read_node_literal rec v s :
  literal v = true -> read_node rec v s = (Val v, s).
Proof.
  destruct v; try reflexivity. simpl. unfold literal_str.
  intros [Hm Hi]%andb_prop.
  apply negb_true_iff in Hm, Hi. now rewrite Hm, Hi.
Qed.

Lemma lazy_item_literal rec seen param k v s :
  item seen param k = Ok v -> literal v = true ->
  lazy_item rec seen param k s = (Val v, s).
Proof. intros Hitem Hv. unfold lazy_item. rewrite Hitem. now apply read_node_literal. Qed.


Lemma item_ok_dict seen param k v : item seen param k = Ok v -> exists d, param = VDict d.
Proof. destruct param; try discriminate. eauto. Qed.

(** A descent through mappings reads nothing but the node it ends at. *)
Lemma lazy_descend_ok rec path : forall param seen v s,
  descend param seen path = Ok v ->
  (path <> [] -> literal v = true) ->
  lazy_descend rec param seen path s = (Val v, s).
Proof.
  induction path as [|k rest IH]; intros param seen v s Hd Hv; simpl in *.
  - now injection Hd as <-.
  - destruct (item seen param k) as [child|e] eqn:Hitem; [|discriminate].
    unfold bindL. rewrite (lazy_item_literal _ _ _ _ child).
    + apply IH; [assumption|]. intros _. apply Hv. discriminate.
    + assumption.
    + destruct rest as [|k2 rest].
      * simpl in Hd. injection Hd as <-. apply Hv. discriminate.
      * simpl in Hd. destruct (item (seen ++ [KStr k]) child k2) eqn:Hc;
          [|discriminate].
        now destruct (item_ok_dict _ _ _ _ Hc) as [d ->].
Qed.

Lemma lazy_item_plain rec seen param k s :
  plain param = true ->
  lazy_item rec seen param k s = (of_result (item seen param k), s).
Proof.
  intros Hp. unfold lazy_item. destruct (item seen param k) eqn:Hitem; [|reflexivity].
  apply read_node_literal, plain_literal. eapply item_plain; eauto.
Qed.

Lemma lazy_item_int_plain rec seen param n s :
  plain param = true ->
  lazy_item_int rec seen param n s = (of_result (item_int seen param n), s).
Proof.
  intros Hp. unfold lazy_item_int.
  destruct (item_int seen param n) eqn:Hitem; [|reflexivity].
  apply read_node_literal, plain_literal. eapply item_int_plain; eauto.
Qed.

Lemma lazy_get_literal rec d k v s :
  dict_lookup d k = Some v -> literal v = true ->
  lazy_get rec d k s = (Val v, s).
Proof.
  intros Hk Hv. unfold lazy_get. rewrite Hk. destruct v; try reflexivity.
  pose proof Hv as Hv'. simpl in Hv'. unfold literal_str in Hv'.
  apply andb_prop in Hv' as [Hm _]. apply negb_true_iff in Hm. rewrite Hm.
  now apply read_node_literal.
Qed.

Lemma lazy_get_absent rec d k s :
  dict_lookup d k = None -> lazy_get rec d k s = (Val VNone, s).
Proof. intros Hk. unfold lazy_get. now rewrite Hk. Qed.

Lemma lazy_get_missing rec d k s :
  dict_lookup d k = Some (VStr "???") -> lazy_get rec d k s = (Val VNone, s).
Proof. intros Hk. unfold lazy_get. now rewrite Hk. Qed.

Lemma lazy_get_plain rec d k s :
  plain (VDict d) = true -> lazy_get rec d k s = (Val (get d k), s).
Proof.
  intros Hp. unfold get. destruct (dict_lookup d k) as [v|] eqn:Hk.
  - apply lazy_get_literal; [assumption|].
    apply plain_literal. eapply plain_lookup; eauto.
  - now apply lazy_get_absent.
Qed.

Lemma mapL_same {A} (f : A -> L (T := T) A) l s :
  Forall (fun a => f a s = (Val a, s)) l -> mapL f l s = (Val l, s).
Proof.
  induction 1 as [|a l Ha _ IH]; simpl; [reflexivity|].
  unfold bindL. now rewrite Ha, IH.
Qed.

Lemma mapL_read_literal rec l s :
  forallb literal l = true -> mapL (read_node rec) l s = (Val l, s).
Proof.
  intros Hl. apply mapL_same. rewrite forallb_forall in Hl.
  apply Forall_forall. intros a Ha. apply read_node_literal. auto.
Qed.

Lemma forallb_plain_literal l : forallb plain l = true -> forallb literal l = true.
Proof.
  rewrite !forallb_forall. intros Hl a Ha. apply plain_literal. auto.
Qed.

Lemma to_trial_plain v s : plain v = true -> to_trial v s = (Val v, s).
Proof. intros Hv. unfold to_trial. destruct v; try reflexivity; now rewrite Hv. Qed.

Lemma mapL_to_trial_plain l s :
  forallb plain l = true -> mapL to_trial l s = (Val l, s).
Proof.
  intros Hl. apply mapL_same. rewrite forallb_forall in Hl.
  apply Forall_forall. intros a Ha. apply to_trial_plain. auto.
Qed.

Lemma unpack_plain param l :
  plain param = true -> unpack param = Ok l ->
  forall s, mapL to_trial l s = (Val l, s).
Proof.
  intros Hp Hu s. destruct param as [| | | |str|l'|d|]; try discriminate;
    injection Hu as <-.
  - apply mapL_same. clear Hp. induction str as [|c str IH]; simpl; auto.
  - now apply mapL_to_trial_plain.
  - apply mapL_same. apply Forall_forall. intros a [kv [<- _]]%in_map_iff.
    reflexivity.
Qed.

Lemma lazy_unpack_plain rec param s :
  plain param = true ->
  lazy_unpack rec param s = (of_result (unpack param), s).
Proof.
  intros Hp. destruct param; try reflexivity. simpl.
  now apply mapL_read_literal, forallb_plain_literal.
Qed.

Lemma lazy_descend_plain rec path : forall param seen s,
  plain param = true ->
  lazy_descend rec param seen path s = (of_result (descend param seen path), s).
Proof.
  induction path as [|k rest IH]; intros param seen s Hp; simpl; [reflexivity|].
  unfold bindL. rewrite lazy_item_plain by assumption.
  destruct (item seen param k) as [child|e] eqn:Hitem; simpl; [|reflexivity].
  apply IH. eapply item_plain; eauto.
Qed.

(** ** The resolver on a document without references *)

Ltac unfold_M :=
  unfold bind, gets, ret, raise, lift, modify, set_log, set_config in *;
  simpl in *.

Lemma lazy_sample_param_plain rec key d s :
  plain (VDict d) = true ->
  lazy_sample_param repr rec key d s = of_M (_sample_param repr key d) s.
Proof.
  intros Hp. unfold lazy_sample_param, _sample_param, of_M.
  unfold bind, gets, lift, ret, raise. unfold bindL at 1. unfold getsL.
  cbn [of_result fst snd].
  destruct (trial s) as [t|] eqn:Ht; cbn [of_result fst snd].
  - unfold bindL at 1. rewrite lazy_get_plain by assumption. cbn [of_result fst snd].
    destruct (negb (is_None (get d "sample_type"))); [|reflexivity].
    destruct (is_str (get d "sample_type") "single_value").
    { rewrite lazy_item_plain by assumption.
      now destruct (item _ (VDict d) "sample_space"). }
    destruct (is_str (get d "sample_type") "categorical").
    { unfold bindL. rewrite lazy_item_plain by assumption.
      destruct (item _ (VDict d) "sample_space") as [space|e] eqn:Hs;
        cbn [of_result fst snd]; [|reflexivity].
      rewrite to_trial_plain by (eapply item_plain; eauto). reflexivity. }
    destruct (is_str (get d "sample_type") "float").
    { unfold bindL. rewrite lazy_item_plain by assumption.
      destruct (item _ (VDict d) "sample_space") as [space|e] eqn:Hs;
        cbn [of_result fst snd]; [|reflexivity].
      assert (Hsp : plain space = true) by (eapply item_plain; eauto).
      rewrite lazy_unpack_plain by assumption.
      destruct (unpack space) as [args|e] eqn:Hu; cbn [of_result fst snd]; [|reflexivity].
      rewrite (unpack_plain _ _ Hsp Hu). reflexivity. }
    destruct (is_str (get d "sample_type") "range"); [|reflexivity].
    unfold bindL, liftL. rewrite lazy_item_plain by assumption.
    destruct (item _ (VDict d) "sample_space") as [space|e] eqn:Hs;
      cbn [of_result fst snd]; [|reflexivity].
    assert (Hsp : plain space = true) by (eapply item_plain; eauto).
    rewrite lazy_item_int_plain by assumption.
    destruct (item_int _ space 0) as [lo|e]; cbn [of_result fst snd]; [|reflexivity].
    rewrite lazy_item_plain by assumption. rewrite Hs. cbn [of_result fst snd].
    rewrite lazy_item_int_plain by assumption.
    destruct (item_int _ space 1) as [hi|e]; cbn [of_result fst snd]; [|reflexivity].
    destruct (as_int hi); cbn [of_result fst snd]; [|reflexivity].
    destruct (as_int lo); cbn [of_result fst snd]; reflexivity.
  - rewrite lazy_get_plain by assumption. reflexivity.
Qed.

(** On a document without references the resolver with the references in
    place is the resolver of the sources read plainly. *)
Lemma lazy_getitem_plain n p s :
  plain (config s) = true ->
  lazy_getitem repr (S n) [] p s = of_M (__getitem__ repr p) s.
Proof.
  intros Hp. destruct (log s !! p) as [w|] eqn:Hl.
  - rewrite (lazy_getitem_hit _ _ _ _ _ Hl). unfold of_M.
    now rewrite (getitem_hit repr _ _ _ Hl).
  - rewrite lazy_getitem_miss, getitem_body_miss by assumption.
    unfold of_M. rewrite (getitem_miss repr _ _ Hl).
    rewrite lazy_descend_plain by assumption.
    destruct (descend (config s) [] (split p)) as [param|e] eqn:Hd; simpl;
      [|reflexivity].
    assert (Hpp : plain param = true) by (eapply descend_plain; eauto).
    destruct param as [| | | | | |d|]; try reflexivity.
    rewrite lazy_sample_param_plain by assumption. unfold of_M.
    now destruct (_sample_param repr p d s) as [[v|e] s2].
Qed.

Lemma assign_setitem_error path : forall param seen v parent e,
  path <> [] ->
  descend param seen (removelast path) = Ok parent ->
  setitem parent (List.last path "") v = Err e ->
  assign param seen path v = Err e.
Proof.
  induction path as [|k rest IH]; intros param seen v parent e Hne Hd Hs;
    [congruence|].
  destruct rest as [|k2 rest].
  - simpl in *. now injection Hd as ->.
  - change (removelast (k :: k2 :: rest)) with (k :: removelast (k2 :: rest)) in Hd.
    change (List.last (k :: k2 :: rest) "") with (List.last (k2 :: rest) "") in Hs.
    rewrite descend_cons in Hd. rewrite assign_cons.
    destruct (item seen param k) as [child|e'] eqn:Hitem; [|discriminate].
    rewrite (IH child (seen ++ [KStr k]) v parent e); [|discriminate|assumption..].
    now destruct param.
Qed.

Lemma split_nonempty p : split p <> [].
Proof. apply split_on_nonempty. Qed.

Lemma lazy_setitem_plain n p v s :
  plain (config s) = true ->
  lazy_setitem repr n p v s = of_M (__setitem__ p v) s.
Proof.
  intros Hp. unfold lazy_setitem, __setitem__, of_M.
  unfold bindL at 1. unfold bind at 1. unfold getsL, gets.
  unfold bindL at 1. rewrite lazy_descend_plain by assumption.
  destruct (descend (config s) [] (removelast (split p))) as [parent|e] eqn:Hd;
    simpl.
  - unfold bindL at 1. unfold liftL at 1.
    destruct (setitem parent (List.last (split p) "") v) as [x|e] eqn:Hs; simpl.
    + unfold bindL, bind, liftL, lift, modifyL, modify.
      now destruct (assign (config s) [] (split p) v).
    + unfold bind, lift.
      now rewrite (assign_setitem_error _ _ _ _ _ _ (split_nonempty p) Hd Hs).
  - unfold bind, lift. now rewrite (assign_parent_error _ _ _ v _ Hd).
Qed.

Lemma step_plain s o :
  plain (config s) = true -> writes_plain o = true ->
  plain (config (step repr s o)) = true.
Proof.
  intros Hp Ho. destruct o as [p|p v]; simpl.
  - destruct (__getitem__ repr p s) as [r s'] eqn:Hrun. simpl.
    destruct (getitem_frame repr _ _ _ _ Hrun) as (_ & -> & _). assumption.
  - rewrite setitem_run.
    destruct (assign (config s) [] (split p) v) as [cfg'|e] eqn:Ha; simpl;
      [|assumption].
    exact (assign_plain _ _ _ _ _ Hp Ho Ha).
Qed.

Lemma lazy_step_plain n s o :
  plain (config s) = true -> lazy_step repr (S n) s o = step repr s o.
Proof.
  intros Hp. destruct o as [p|p v]; unfold lazy_step, step.
  - now rewrite lazy_getitem_plain.
  - now rewrite lazy_setitem_plain.
Qed.

Lemma lazy_run_plain n ops : forall s,
  plain (config s) = true -> forallb writes_plain ops = true ->
  lazy_run repr (S n) ops s = run repr ops s
  /\ plain (config (run repr ops s)) = true.
Proof.
  induction ops as [|o ops IH]; intros s Hp Hops; simpl; [auto|].
  apply andb_prop in Hops as [Ho Hops].
  rewrite lazy_step_plain by assumption.
  apply IH; [now apply step_plain|assumption].
Qed.

(** ** Runs of operations *)

(** What an Overwrite leaves behind: the nodes down to the parent have
    been read, then the entry is written, if it can be. *)
Lemma lazy_setitem_spec n p v s o s' :
  lazy_setitem repr n p v s = (o, s') ->
  exists s1, kept [] s s1 /\ calls s' = calls s1
    /\ match o with
       | Val _ => log s' = <[p := v]> (log s1)
                  /\ assign (config s) [] (split p) v = Ok (config s')
       | _ => s' = s1
       end.
Proof.
  unfold lazy_setitem. unfold bindL at 1. unfold getsL. unfold bindL at 1.
  destruct (lazy_descend (lazy_getitem repr n []) (config s) []
              (removelast (split p)) s) as [o1 s1] eqn:E1.
  destruct (reads_lazy_descend _ [] (fun j => lazy_getitem_reads n [] j)
              _ _ _ _ _ _ E1) as [K1 _].
  destruct o1 as [parent|e|l]; [|intros [= <- <-]; eauto..].
  unfold bindL at 1. unfold liftL at 1.
  destruct (setitem parent (List.last (split p) "") v) as [x|e];
    cbn [of_result]; [|intros [= <- <-]; eauto].
  unfold bindL, liftL, modifyL.
  destruct (assign (config s) [] (split p) v) as [cfg'|e];
    cbn [of_result]; intros [= <- <-]; eauto.
Qed.

Lemma lazy_step_cached n s o q :
  is_Some (log s !! q) ->
  is_Some (log (lazy_step repr n s o) !! q)
  /\ count_named q (calls (lazy_step repr n s o)) = count_named q (calls s).
Proof.
  intros Hq. destruct o as [p|p v]; unfold lazy_step.
  - destruct (lazy_getitem repr n [] p s) as [o s'] eqn:Hrun.
    destruct (lazy_getitem_spec _ _ _ _ _ _ Hrun) as (K & _). simpl. split.
    + destruct Hq as [w Hw]. exists w. eapply kept_entries; eauto.
    + eapply kept_cached; eauto.
  - destruct (lazy_setitem repr n p v s) as [o s'] eqn:Hrun.
    destruct (lazy_setitem_spec _ _ _ _ _ _ Hrun) as (s1 & K & Hcalls & Ho).
    simpl. rewrite Hcalls. split; [|eapply kept_cached; eauto].
    assert (Hq1 : is_Some (log s1 !! q)).
    { destruct Hq as [w Hw]. exists w. eapply kept_entries; eauto. }
    destruct o as [x|e|l]; [|now subst s'..].
    destruct Ho as [-> _]. destruct (String.eqb_spec p q) as [->|Hne].
    + rewrite lookup_insert_eq. eauto.
    + now rewrite lookup_insert_ne.
Qed.

Lemma lazy_run_cached n ops : forall s q,
  is_Some (log s !! q) ->
  is_Some (log (lazy_run repr n ops s) !! q)
  /\ count_named q (calls (lazy_run repr n ops s)) = count_named q (calls s).
Proof.
  induction ops as [|o ops IH]; intros s q Hq; simpl; [auto|].
  destruct (lazy_step_cached n s o q Hq) as [Hq1 Hc1].
  destruct (IH _ q Hq1) as [Hq2 Hc2]. split; [assumption|congruence].
Qed.

Lemma lazy_run_hit n p v k : forall s,
  log s !! p = Some v -> lazy_run repr n (repeat (Resolve p) k) s = s.
Proof.
  induction k as [|k IH]; intros s Hhit; simpl; [reflexivity|].
  rewrite (lazy_getitem_hit _ _ _ _ _ Hhit). simpl. now apply IH.
Qed.

(** Under Resolve alone the document and the entries of the cache stay. *)
Lemma lazy_run_resolve n ops : forall s,
  forallb is_resolve ops = true ->
  config (lazy_run repr n ops s) = config s
  /\ (forall q w, log s !! q = Some w -> log (lazy_run repr n ops s) !! q = Some w).
Proof.
  induction ops as [|o ops IH]; intros s Hops; simpl; [auto|].
  apply andb_prop in Hops as [Ho Hops]. destruct o as [p|]; [|discriminate].
  simpl. destruct (lazy_getitem repr n [] p s) as [o s'] eqn:Hrun.
  destruct (lazy_getitem_spec _ _ _ _ _ _ Hrun) as (K & _). simpl.
  destruct (IH s' Hops) as [Hc He]. split.
  - rewrite Hc. apply (kept_config _ _ _ K).
  - intros q w Hw. apply He. eapply kept_entries; eauto.
Qed.

(** ** Resolve, node by node *)

Lemma lazy_getitem_node n p s d :
  log s !! p = None ->
  descend (config s) [] (split p) = Ok (VDict d) ->
  lazy_getitem repr (S n) [] p s =
    match lazy_sample_param repr (lazy_getitem repr n [p]) p d s with
    | (Val v, s2) => (Val v, set_log (<[p := v]> (log s2)) s2)
    | (Raise e, s2) => (Raise e, s2)
    | (Beyond l, s2) => (Beyond l, s2)
    end.
Proof.
  intros Hmiss Hd. rewrite lazy_getitem_miss, getitem_body_miss by assumption.
  now rewrite (lazy_descend_ok _ _ _ _ _ _ Hd) by reflexivity.
Qed.

Lemma lazy_sample_param_offline rec key d s :
  trial s = None ->
  lazy_sample_param repr rec key d s = lazy_get rec d "default" s.
Proof.
  intros Ht. unfold lazy_sample_param. unfold bindL at 1. unfold getsL.
  now rewrite Ht.
Qed.

Ltac enter_sample_param Ht Htag :=
  unfold lazy_sample_param; unfold bindL at 1; unfold getsL; rewrite Ht;
  cbv beta iota; unfold bindL at 1;
  rewrite (lazy_get_literal _ _ _ _ _ Htag) by assumption || reflexivity;
  cbv beta iota.

(** Once Resolve has returned, the path is cached and repeating the call
    changes nothing. *)
Lemma resolve_settled_lazy n s p v s1 :
  lazy_getitem repr n [] p s = (Val v, s1) ->
  log s1 !! p = Some v
  /\ forall k, lazy_run repr n (repeat (Resolve p) (S k)) s = s1.
Proof.
  intros Hrun.
  destruct (lazy_getitem_spec _ _ _ _ _ _ Hrun) as (_ & _ & Hval & _).
  pose proof (Hval v eq_refl) as Hhit. split; [assumption|].
  intros k. simpl. rewrite Hrun. simpl. now apply (lazy_run_hit _ _ v).
Qed.

(** C1. Resolution is memoized.  Once Resolve has returned [v] for [p],
    every further call returns [v] and changes nothing, whatever the
    document holds by then (the tree is not read: no nesting is needed),
    and the Trial has been asked under the name [p] once at most, by the
    first call, the references that the nodes hold included; whatever is
    run afterwards, it is never asked under that name again. *)
Theorem resolve_is_memoized n s p v s1 :
  lazy_getitem repr n [] p s = (Val v, s1) ->
  (forall m X, lazy_getitem repr m X p s1 = (Val v, s1))
  /\ (forall m X cfg,
        lazy_getitem repr m X p (set_config cfg s1) = (Val v, set_config cfg s1))
  /\ (forall k, lazy_run repr n (repeat (Resolve p) (S k)) s = s1)
  /\ (count_named p (calls s1) <= S (count_named p (calls s)))%nat
  /\ (forall m ops,
        count_named p (calls (lazy_run repr m ops s1)) = count_named p (calls s1)).
Proof.
  intros Hrun.
  destruct (lazy_getitem_spec _ _ _ _ _ _ Hrun) as (K & _ & Hval & _).
  pose proof (Hval v eq_refl) as Hhit.
  split_and!.
  - intros m X. now apply lazy_getitem_hit.
  - intros m X cfg. now apply lazy_getitem_hit.
  - intros k. simpl. rewrite Hrun. simpl. now apply (lazy_run_hit _ _ v).
  - apply (kept_count _ _ _ K).
  - intros m ops. apply lazy_run_cached. eauto.
Qed.

(** C3. Without a Trial, a path that is looked up and leads to a mapping
    resolves to the [default] entry of the mapping, or to [None] where
    there is none or where it is marked as missing; the value is cached,
    no exception is raised, and every later call returns it again. *)
Theorem default_when_offline n s p d dflt :
  trial s = None ->
  log s !! p = None ->
  descend (config s) [] (split p) = Ok (VDict d) ->
  (dict_lookup d "default" = None /\ dflt = VNone)
  \/ (dict_lookup d "default" = Some (VStr "???") /\ dflt = VNone)
  \/ (dict_lookup d "default" = Some dflt /\ literal dflt = true) ->
  let s1 := set_log (<[p := dflt]> (log s)) s in
  lazy_getitem repr (S n) [] p s = (Val dflt, s1)
  /\ forall k, lazy_getitem repr (S n) [] p
                 (lazy_run repr (S n) (repeat (Resolve p) k) s) = (Val dflt, s1).
Proof.
  intros Ht Hmiss Hd Hdflt s1.
  assert (Hfirst : lazy_getitem repr (S n) [] p s = (Val dflt, s1)).
  { rewrite (lazy_getitem_node _ _ _ _ Hmiss Hd).
    rewrite lazy_sample_param_offline by assumption.
    destruct Hdflt as [[Hk ->]|[[Hk ->]|[Hk Hlit]]].
    - now rewrite lazy_get_absent.
    - now rewrite lazy_get_missing.
    - now rewrite (lazy_get_literal _ _ _ _ _ Hk Hlit). }
  split; [exact Hfirst|]. intros [|k]; [exact Hfirst|].
  destruct (resolve_settled_lazy _ _ _ _ _ Hfirst) as [Hhit Hrep].
  rewrite Hrep. now apply lazy_getitem_hit.
Qed.

(** C7. A mapping whose [sample_type] is set, and is none of the four
    known tags, looked up while a Trial is active: Resolve raises
    [NotImplementedError] with a message built around the tag, and leaves
    the state as it was. *)
Theorem unknown_tag_raises n s p d t tag :
  trial s = Some t ->
  log s !! p = None ->
  descend (config s) [] (split p) = Ok (VDict d) ->
  dict_lookup d "sample_type" = Some tag ->
  literal tag = true ->
  tag <> VNone ->
  tag <> VStr "single_value" ->
  tag <> VStr "categorical" ->
  tag <> VStr "float" ->
  tag <> VStr "range" ->
  lazy_getitem repr (S n) [] p s =
    (Raise (NotImplementedError
              ("sample_type " +:+ format repr tag +:+ " is not supported")), s)
  /\ forall name, tag = VStr name -> format repr tag = name.
Proof.
  intros Ht Hmiss Hd Htag Hlit H0 H1 H2 H3 H4.
  split; [|now intros name ->].
  rewrite (lazy_getitem_node _ _ _ _ Hmiss Hd).
  enter_sample_param Ht Htag.
  rewrite (is_None_false _ H0). cbn [negb].
  now rewrite !is_str_false by assumption.
Qed.


(** X1. A [categorical] node looked up while a Trial is active: the Trial is
    asked once, under the name of the path, with the [sample_space] entry
    as it stands.  What it answers is returned and cached; when it raises,
    the exception goes through and nothing is cached, but the call has
    been made. *)
Theorem categorical_asks_trial n s p d t space :
  trial s = Some t ->
  log s !! p = None ->
  descend (config s) [] (split p) = Ok (VDict d) ->
  dict_lookup d "sample_type" = Some (VStr "categorical") ->
  dict_lookup d "sample_space" = Some space ->
  plain space = true ->
  let (r, t') := suggest_categorical t p space in
  let s' := mkRunInfo (study_name s) (config s) (log s) (Some t')
              (calls s ++ [SuggestCategorical p space]) in
  lazy_getitem repr (S n) [] p s =
    match r with
    | Ok v => (Val v, set_log (<[p := v]> (log s)) s')
    | Err e => (Raise e, s')
    end.
Proof.
  intros Ht Hmiss Hd Htag Hspace Hplain.
  rewrite (lazy_getitem_node _ _ _ _ Hmiss Hd).
  enter_sample_param Ht Htag. cbn [is_None negb is_str String.eqb Ascii.eqb Bool.eqb].
  unfold bindL.
  rewrite (lazy_item_literal _ _ _ _ space)
    by (simpl; rewrite ?Hspace; auto using plain_literal).
  rewrite to_trial_plain by assumption.
  unfold of_M, call_categorical. rewrite Ht.
  destruct (suggest_categorical t p space) as [[v|e] t']; reflexivity.
Qed.

(** X2. A [float] node whose [sample_space] is a sequence: its elements, however
    many there are, become the positional arguments of one [suggest_float]
    call named by the path; the outcome of the call is the outcome of
    Resolve.  A [sample_space] that cannot be unpacked raises [TypeError]
    before the Trial is reached. *)
Theorem float_asks_trial n s p d t space :
  trial s = Some t ->
  log s !! p = None ->
  descend (config s) [] (split p) = Ok (VDict d) ->
  dict_lookup d "sample_type" = Some (VStr "float") ->
  dict_lookup d "sample_space" = Some space ->
  (forall args, space = VList args -> plain space = true ->
      let (r, t') := suggest_float t p args in
      let s' := mkRunInfo (study_name s) (config s) (log s) (Some t')
                  (calls s ++ [SuggestFloat p args]) in
      lazy_getitem repr (S n) [] p s =
        match r with
        | Ok v => (Val v, set_log (<[p := v]> (log s)) s')
        | Err e => (Raise e, s')
        end)
  /\ (unpack space = Err TypeError ->
      lazy_getitem repr (S n) [] p s = (Raise TypeError, s)).
Proof.
  intros Ht Hmiss Hd Htag Hspace.
  split; rewrite (lazy_getitem_node _ _ _ _ Hmiss Hd);
    enter_sample_param Ht Htag;
    cbn [is_None negb is_str String.eqb Ascii.eqb Bool.eqb]; unfold bindL.
  - intros args -> Hplain.
    rewrite (lazy_item_literal _ _ _ _ (VList args))
      by (simpl; rewrite ?Hspace; auto).
    rewrite lazy_unpack_plain by assumption. cbn [unpack of_result].
    rewrite mapL_to_trial_plain by exact Hplain.
    unfold of_M, call_float. rewrite Ht.
    destruct (suggest_float t p args) as [[v|e] t']; reflexivity.
  - intros Hu.
    rewrite (lazy_item_literal _ _ _ _ space)
      by (simpl; rewrite ?Hspace; auto; now destruct space).
    destruct space; try discriminate; reflexivity.
Qed.

(** X3. A path that leads to anything but a mapping (a scalar, [None], a
    sequence) resolves to that value as it stands and caches it; the
    Trial, active or not, is not consulted. *)
Theorem plain_leaf_resolves n s p v :
  log s !! p = None ->
  descend (config s) [] (split p) = Ok v ->
  (forall d, v <> VDict d) ->
  literal v = true ->
  lazy_getitem repr (S n) [] p s = (Val v, set_log (<[p := v]> (log s)) s).
Proof.
  intros Hmiss Hd Hnd Hlit.
  rewrite lazy_getitem_miss, getitem_body_miss by assumption.
  rewrite (lazy_descend_ok _ _ _ _ _ _ Hd) by auto.
  destruct v as [| | | | | |d|]; try reflexivity. now destruct (Hnd d).
Qed.


(** ** Segments that do not exist *)







(** C10, as amended.  When Resolve or Overwrite raises, the document is
    as before and no entry that the cache held is changed or removed; a
    failing Resolve leaves its own path without an entry.  On a document
    without references the cache is exactly the one from before the
    call. *)
Theorem failure_keeps_entries n s p v e s1 :
  lazy_getitem repr n [] p s = (Raise e, s1)
  \/ lazy_setitem repr n p v s = (Raise e, s1) ->
  config s1 = config s
  /\ (forall q w, log s !! q = Some w -> log s1 !! q = Some w)
  /\ (lazy_getitem repr n [] p s = (Raise e, s1) -> log s1 !! p = None)
  /\ (plain (config s) = true -> log s1 = log s).
Proof.
  intros Hfail. split_and!.
  - destruct Hfail as [Hget|Hset].
    + destruct (lazy_getitem_spec _ _ _ _ _ _ Hget) as (K & _).
      apply (kept_config _ _ _ K).
    + destruct (lazy_setitem_spec _ _ _ _ _ _ Hset) as (s2 & K & _ & ->).
      apply (kept_config _ _ _ K).
  - destruct Hfail as [Hget|Hset].
    + destruct (lazy_getitem_spec _ _ _ _ _ _ Hget) as (K & _).
      apply (kept_entries _ _ _ K).
    + destruct (lazy_setitem_spec _ _ _ _ _ _ Hset) as (s2 & K & _ & ->).
      apply (kept_entries _ _ _ K).
  - intros Hget.
    destruct (lazy_getitem_spec _ _ _ _ _ _ Hget) as (_ & _ & _ & Hnone). auto.
  - intros Hp. destruct Hfail as [Hget|Hset].
    + destruct n as [|n].
      { simpl in Hget. destruct (log s !! p); discriminate. }
      rewrite lazy_getitem_plain in Hget by assumption. unfold of_M in Hget.
      destruct (__getitem__ repr p s) as [[w|e'] s'] eqn:Hrun; [discriminate|].
      simpl in Hget. injection Hget as <- <-.
      exact (proj1 (plain_failure_keeps_log repr s p v e' s' (or_introl Hrun))).
    + rewrite lazy_setitem_plain in Hset by assumption. unfold of_M in Hset.
      destruct (__setitem__ p v s) as [[w|e'] s'] eqn:Hrun; [discriminate|].
      simpl in Hset. injection Hset as <- <-.
      exact (proj1 (plain_failure_keeps_log repr s p v e' s' (or_intror Hrun))).
Qed.

(** X7. Without a Trial nothing in a node is checked: on a document
    without references, Resolve of a path that exists in the document
    always returns, whatever [sample_type] and [sample_space] say or lack,
    and makes no call. *)
Theorem offline_always_returns n s p :
  trial s = None ->
  plain (config s) = true ->
  path_exists (config s) (split p) = true ->
  exists v s', lazy_getitem repr (S n) [] p s = (Val v, s')
               /\ log s' !! p = Some v
               /\ calls s' = calls s.
Proof.
  intros Ht Hp Hex.
  destruct (plain_offline_returns repr s p Ht Hex) as (v & s' & Hrun & Hlog & Hcalls).
  exists v, s'. rewrite lazy_getitem_plain by assumption.
  unfold of_M. rewrite Hrun. auto.
Qed.

Lemma resolve_writes_plain ops :
  forallb is_resolve ops = true -> forallb writes_plain ops = true.
Proof.
  induction ops as [|o ops IH]; simpl; [reflexivity|].
  intros [Ho Hops]%andb_prop. rewrite (IH Hops).
  now destruct o.
Qed.

Lemma lazy_run_no_depth ops : forall s,
  forallb is_resolve ops = true -> lazy_run repr 0 ops s = s.
Proof.
  induction ops as [|o ops IH]; intros s Hops; simpl; [reflexivity|].
  apply andb_prop in Hops as [Ho Hops]. destruct o as [p|]; [|discriminate].
  simpl. destruct (log s !! p); simpl; now apply IH.
Qed.

(** X8. Under Resolve the cache only grows: over any run of Resolve calls the
    document stays the same and every entry of the cache keeps its
    value; on a document without references, an entry that was not there
    before belongs to a path that the run resolved. *)
Theorem cache_grows_under_resolve n ops : forall s,
  forallb is_resolve ops = true ->
  config (lazy_run repr n ops s) = config s
  /\ (forall q w, log s !! q = Some w -> log (lazy_run repr n ops s) !! q = Some w)
  /\ (plain (config s) = true ->
      forall q w, log (lazy_run repr n ops s) !! q = Some w ->
                  log s !! q = Some w \/ In (Resolve q) ops).
Proof.
  intros s Hops. destruct (lazy_run_resolve n ops s Hops) as [Hc He].
  split_and!; [assumption..|].
  intros Hp q w Hw. destruct n as [|n].
  - rewrite lazy_run_no_depth in Hw by assumption. now left.
  - destruct (lazy_run_plain n ops s Hp (resolve_writes_plain _ Hops)) as [Hrun _].
    rewrite Hrun in Hw.
    now apply (proj2 (proj2 (plain_run_cache repr ops s Hops))).
Qed.

(** X13. On a document without references, to which values without
    references are written, the Trial is consulted by Resolve alone, once
    at most per call and under the name of the path being resolved: over
    a run, the calls made are no more than the Resolve operations of the
    run, and each bears the name of a path that the run resolved. *)
Theorem trial_calls_from_resolve n ops s :
  plain (config s) = true ->
  forallb writes_plain ops = true ->
  exists cs : list call,
    calls (lazy_run repr (S n) ops s) = calls s ++ cs
    /\ (length cs <= length (List.filter is_resolve ops))%nat
    /\ Forall (fun c => In (Resolve (call_name c)) ops) cs.
Proof.
  intros Hp Hops. destruct (lazy_run_plain n ops s Hp Hops) as [-> _].
  apply plain_run_calls.
Qed.

End LazyProperties.

(** ** The properties on the sample documents, references included *)

(** [hp/d] refers to [hp/c], which is categorical: the stub is asked for
    [hp/c], once, and never for [hp/d]. *)
Lemma resolve_is_memoized_witness :
  let s1 := snd (lazy_getitem stub_repr 5 [] "hp/d" linked) in
  lazy_getitem stub_repr 5 [] "hp/d" linked = (Val (VInt 1), s1)
  /\ lazy_getitem stub_repr 0 [] "hp/d" s1 = (Val (VInt 1), s1)
  /\ calls s1 = [SuggestCategorical "hp/c" (VList [VInt 1; VInt 2])]
  /\ (count_named "hp/d" (calls s1) <= S (count_named "hp/d" (calls linked)))%nat
  /\ count_named "hp/d" (calls (lazy_run stub_repr 5 [Resolve "hp/c"; Resolve "hp/d"] s1))
     = count_named "hp/d" (calls s1).
Proof.
  intros s1.
  assert (Hfirst : lazy_getitem stub_repr 5 [] "hp/d" linked = (Val (VInt 1), s1))
    by (vm_compute; reflexivity).
  destruct (resolve_is_memoized stub_repr 5 linked "hp/d" (VInt 1) s1 Hfirst)
    as (Hagain & _ & _ & Hcount & Hlater).
  split_and!; [exact Hfirst | exact (Hagain 0%nat []) | vm_compute; reflexivity
              | exact Hcount | exact (Hlater 5%nat _)].
Defined.

(** Without a Trial: [hp/batch_size] has the default [32], and the
    default of [hp/e] is marked as missing. *)
Lemma default_when_offline_witness :
  trial offline = None
  /\ log offline !! "hp/batch_size" = None
  /\ descend (config offline) [] (split "hp/batch_size") = Ok (VDict batch_size_node)
  /\ lazy_getitem stub_repr 1 [] "hp/batch_size" offline =
       (Val (VInt 32), set_log (<["hp/batch_size" := VInt 32]> (log offline)) offline)
  /\ fst (lazy_getitem stub_repr 1 [] "hp/batch_size"
            (lazy_run stub_repr 1 (repeat (Resolve "hp/batch_size") 3) offline))
     = Val (VInt 32)
  /\ dict_lookup e_node "default" = Some (VStr "???")
  /\ lazy_getitem stub_repr 1 [] "hp/e" linked_offline =
       (Val VNone, set_log (<["hp/e" := VNone]> (log linked_offline)) linked_offline).
Proof.
  assert (H1 : trial offline = None) by reflexivity.
  assert (H2 : log offline !! "hp/batch_size" = None) by (vm_compute; reflexivity).
  assert (H3 : descend (config offline) [] (split "hp/batch_size")
               = Ok (VDict batch_size_node)) by (vm_compute; reflexivity).
  assert (H4 : dict_lookup batch_size_node "default" = Some (VInt 32)) by reflexivity.
  destruct (default_when_offline stub_repr 0 offline "hp/batch_size" batch_size_node
              (VInt 32) H1 H2 H3 (or_intror (or_intror (conj H4 eq_refl))))
    as (Hfirst & Hlater).
  assert (G1 : trial linked_offline = None) by reflexivity.
  assert (G2 : log linked_offline !! "hp/e" = None) by (vm_compute; reflexivity).
  assert (G3 : descend (config linked_offline) [] (split "hp/e") = Ok (VDict e_node))
    by (vm_compute; reflexivity).
  assert (G4 : dict_lookup e_node "default" = Some (VStr "???")) by reflexivity.
  destruct (default_when_offline stub_repr 0 linked_offline "hp/e" e_node VNone
              G1 G2 G3 (or_intror (or_introl (conj G4 eq_refl)))) as (Gfirst & _).
  split_and!; [exact H1 | exact H2 | exact H3 | exact Hfirst | | exact G4 | exact Gfirst].
  rewrite (Hlater 3%nat). reflexivity.
Defined.


(** [hp/sched] carries the tag [unknown_tag]. *)
Lemma unknown_tag_raises_witness :
  trial searching = Some 0%nat
  /\ log searching !! "hp/sched" = None
  /\ descend (config searching) [] (split "hp/sched") = Ok (VDict sched_node)
  /\ dict_lookup sched_node "sample_type" = Some (VStr "unknown_tag")
  /\ lazy_getitem stub_repr 1 [] "hp/sched" searching =
       (Raise (NotImplementedError "sample_type unknown_tag is not supported"), searching).
Proof.
  assert (H1 : trial searching = Some 0%nat) by reflexivity.
  assert (H2 : log searching !! "hp/sched" = None) by (vm_compute; reflexivity).
  assert (H3 : descend (config searching) [] (split "hp/sched") = Ok (VDict sched_node))
    by (vm_compute; reflexivity).
  assert (H4 : dict_lookup sched_node "sample_type" = Some (VStr "unknown_tag"))
    by reflexivity.
  destruct (unknown_tag_raises stub_repr 0 searching "hp/sched" sched_node 0%nat
              (VStr "unknown_tag") H1 H2 H3 H4 eq_refl
              ltac:(discriminate) ltac:(discriminate) ltac:(discriminate)
              ltac:(discriminate) ltac:(discriminate)) as (Hrun & _).
  split_and!; [exact H1 | exact H2 | exact H3 | exact H4 | exact Hrun].
Defined.


(** C10 does not hold.  [hp/b] refers to [hp/a]: Resolve of [hp/b/x] and
    Overwrite of [hp/b/x] raise [TypeError], for [hp/b] reads as [5], and
    by then the cache has an entry for [hp/a] that was not there before
    the call. *)
Lemma failed_resolve_grows_cache :
  let r := lazy_getitem stub_repr 5 [] "hp/b/x" linked in
  let w := lazy_setitem stub_repr 5 "hp/b/x" (VInt 1) linked in
  fst r = Raise TypeError
  /\ fst w = Raise TypeError
  /\ log linked !! "hp/a" = None
  /\ log (snd r) !! "hp/a" = Some (VInt 5)
  /\ log (snd w) !! "hp/a" = Some (VInt 5)
  /\ log (snd r) <> log linked
  /\ log (snd w) <> log linked.
Proof.
  intros r w.
  assert (H0 : log linked !! "hp/a" = None) by (vm_compute; reflexivity).
  assert (Hr : log (snd r) !! "hp/a" = Some (VInt 5)) by (vm_compute; reflexivity).
  assert (Hw : log (snd w) !! "hp/a" = Some (VInt 5)) by (vm_compute; reflexivity).
  split_and!; [vm_compute; reflexivity | vm_compute; reflexivity
              | exact H0 | exact Hr | exact Hw | |].
  - intros E. rewrite E in Hr. congruence.
  - intros E. rewrite E in Hw. congruence.
Qed.

(** The failing Resolve of [hp/b/x], on a cache that holds [hp/epochs]. *)
Lemma failure_keeps_entries_witness :
  let s := set_log (<["hp/epochs" := VInt 3]> ∅) linked in
  let s1 := snd (lazy_getitem stub_repr 5 [] "hp/b/x" s) in
  lazy_getitem stub_repr 5 [] "hp/b/x" s = (Raise TypeError, s1)
  /\ config s1 = linked_config
  /\ log s1 !! "hp/epochs" = Some (VInt 3)
  /\ log s1 !! "hp/b/x" = None.
Proof.
  intros s s1.
  assert (H1 : lazy_getitem stub_repr 5 [] "hp/b/x" s = (Raise TypeError, s1))
    by (vm_compute; reflexivity).
  destruct (failure_keeps_entries stub_repr 5 s "hp/b/x" VNone TypeError s1
              (or_introl H1)) as (Hcfg & Hkeep & Hown & _).
  split_and!; [exact H1 | exact Hcfg | | exact (Hown H1)].
  apply Hkeep. vm_compute. reflexivity.
Defined.

(** [hp/batch_size] is categorical: the stub is offered [64; 128]. *)
Lemma categorical_asks_trial_witness :
  trial searching = Some 0%nat
  /\ log searching !! "hp/batch_size" = None
  /\ descend (config searching) [] (split "hp/batch_size") = Ok (VDict batch_size_node)
  /\ dict_lookup batch_size_node "sample_type" = Some (VStr "categorical")
  /\ dict_lookup batch_size_node "sample_space" = Some (VList [VInt 64; VInt 128])
  /\ plain (VList [VInt 64; VInt 128]) = true
  /\ lazy_getitem stub_repr 1 [] "hp/batch_size" searching =
       (Val (VInt 64),
        mkRunInfo (Some "study") sample_config (<["hp/batch_size" := VInt 64]> ∅)
          (Some 1%nat)
          [SuggestCategorical "hp/batch_size" (VList [VInt 64; VInt 128])]).
Proof.
  assert (H1 : trial searching = Some 0%nat) by reflexivity.
  assert (H2 : log searching !! "hp/batch_size" = None) by (vm_compute; reflexivity).
  assert (H3 : descend (config searching) [] (split "hp/batch_size")
               = Ok (VDict batch_size_node)) by (vm_compute; reflexivity).
  assert (H4 : dict_lookup batch_size_node "sample_type" = Some (VStr "categorical"))
    by reflexivity.
  assert (H5 : dict_lookup batch_size_node "sample_space"
               = Some (VList [VInt 64; VInt 128])) by reflexivity.
  assert (H6 : plain (VList [VInt 64; VInt 128]) = true) by reflexivity.
  pose proof (categorical_asks_trial stub_repr 0 searching "hp/batch_size"
                batch_size_node 0%nat _ H1 H2 H3 H4 H5 H6) as Hthm.
  simpl in Hthm.
  split_and!; [exact H1 | exact H2 | exact H3 | exact H4 | exact H5 | exact H6
              | exact Hthm].
Defined.

(** [hp/beta] is a float between [0.01] and [0.5]. *)
Lemma float_asks_trial_witness :
  trial searching = Some 0%nat
  /\ log searching !! "hp/beta" = None
  /\ descend (config searching) [] (split "hp/beta") = Ok (VDict beta_node)
  /\ dict_lookup beta_node "sample_type" = Some (VStr "float")
  /\ dict_lookup beta_node "sample_space" = Some (VList [VFloat 1 (-2); VFloat 5 (-1)])
  /\ lazy_getitem stub_repr 1 [] "hp/beta" searching =
       (Val (VFloat 1 (-2)),
        mkRunInfo (Some "study") sample_config (<["hp/beta" := VFloat 1 (-2)]> ∅)
          (Some 1%nat)
          [SuggestFloat "hp/beta" [VFloat 1 (-2); VFloat 5 (-1)]]).
Proof.
  assert (H1 : trial searching = Some 0%nat) by reflexivity.
  assert (H2 : log searching !! "hp/beta" = None) by (vm_compute; reflexivity).
  assert (H3 : descend (config searching) [] (split "hp/beta") = Ok (VDict beta_node))
    by (vm_compute; reflexivity).
  assert (H4 : dict_lookup beta_node "sample_type" = Some (VStr "float")) by reflexivity.
  assert (H5 : dict_lookup beta_node "sample_space"
               = Some (VList [VFloat 1 (-2); VFloat 5 (-1)])) by reflexivity.
  destruct (float_asks_trial stub_repr 0 searching "hp/beta" beta_node 0%nat _
              H1 H2 H3 H4 H5) as (Hlist & _).
  pose proof (Hlist _ eq_refl eq_refl) as Hrun. simpl in Hrun.
  split_and!; [exact H1 | exact H2 | exact H3 | exact H4 | exact H5 | exact Hrun].
Defined.

(** [hp/epochs] is the integer [10], with or without a Trial. *)
Lemma plain_leaf_resolves_witness :
  log searching !! "hp/epochs" = None
  /\ descend (config searching) [] (split "hp/epochs") = Ok (VInt 10)
  /\ lazy_getitem stub_repr 1 [] "hp/epochs" searching =
       (Val (VInt 10), set_log (<["hp/epochs" := VInt 10]> (log searching)) searching).
Proof.
  assert (H1 : log searching !! "hp/epochs" = None) by (vm_compute; reflexivity).
  assert (H2 : descend (config searching) [] (split "hp/epochs") = Ok (VInt 10))
    by (vm_compute; reflexivity).
  split_and!; [exact H1 | exact H2 |].
  apply (plain_leaf_resolves stub_repr 0 searching "hp/epochs" (VInt 10) H1 H2);
    [intros d; discriminate | reflexivity].
Defined.


(** Without a Trial the unknown tag of [hp/sched] goes unnoticed. *)
Lemma offline_always_returns_witness :
  trial offline = None
  /\ plain (config offline) = true
  /\ path_exists (config offline) (split "hp/sched") = true
  /\ exists v s', lazy_getitem stub_repr 1 [] "hp/sched" offline = (Val v, s').
Proof.
  assert (H1 : trial offline = None) by reflexivity.
  assert (H2 : plain (config offline) = true) by (vm_compute; reflexivity).
  assert (H3 : path_exists (config offline) (split "hp/sched") = true)
    by (vm_compute; reflexivity).
  destruct (offline_always_returns stub_repr 0 offline "hp/sched" H1 H2 H3)
    as (v & s' & Hrun & _).
  split_and!; [exact H1 | exact H2 | exact H3 |]. exists v, s'. exact Hrun.
Defined.

(** Three Resolve calls on the document with references, one of them
    failing, on a seeded cache. *)
Lemma cache_grows_under_resolve_witness :
  let s := set_log (<["hp/epochs" := VInt 3]> ∅) linked in
  let ops := [Resolve "hp/d"; Resolve "hp/b/x"; Resolve "hp/m"] in
  forallb is_resolve ops = true
  /\ config (lazy_run stub_repr 5 ops s) = linked_config
  /\ log (lazy_run stub_repr 5 ops s) !! "hp/epochs" = Some (VInt 3).
Proof.
  intros s ops.
  assert (H1 : forallb is_resolve ops = true) by reflexivity.
  destruct (cache_grows_under_resolve stub_repr 5 ops s H1) as (Hcfg & Hkeep & _).
  split_and!; [exact H1 | exact Hcfg |].
  apply Hkeep. vm_compute. reflexivity.
Defined.


(** A run on the sample document: two Resolve calls, of which one asks
    the stub, and an Overwrite. *)
Lemma trial_calls_from_resolve_witness :
  let ops := [Resolve "hp/T"; Overwrite "hp/epochs" (VInt 3); Resolve "hp/epochs"] in
  plain (config searching) = true
  /\ forallb writes_plain ops = true
  /\ exists cs : list call,
       calls (lazy_run stub_repr 3 ops searching) = calls searching ++ cs
       /\ (length cs <= 2)%nat.
Proof.
  intros ops.
  assert (H1 : plain (config searching) = true) by (vm_compute; reflexivity).
  assert (H2 : forallb writes_plain ops = true) by reflexivity.
  destruct (trial_calls_from_resolve stub_repr 2 ops searching H1 H2)
    as (cs & Hcalls & Hlen & _).
  split_and!; [exact H1 | exact H2 |]. exists cs. split; [exact Hcalls | exact Hlen].
Defined.
